(** * checkmate-mcp: the streaming event pipeline

    A shallow embedding of the three pieces of checkmate-mcp that carry its
    streaming logic, and the properties proved about them:

    - [Sse]: the incremental Server-Sent-Events decoder,
      [CheckmateClient.parseSSEStream] of [src/checkmate-client.ts], both as
      the list of everything it yields and as a resumable generator with its
      [finally] block;
    - [Runner]: the step state fold of [ui-src/test-runner.ts]
      ([processEvent], [showSummary], [processToolResult]) and the run status
      computed by the tool handlers of [server.ts];
    - [Relay]: the two proxy handlers of [server.ts], in both revisions
      present in the sources (with and without the zod request schemas).

    [Concrete] holds inputs to run the definitions on; the results follow,
    one module of facts for each part.

    JavaScript strings are sequences of UTF-16 code units ([list N]); byte
    chunks are [list byte].  [TextDecoder] and [JSON.parse] belong to the
    platform, not to the repository: the decoder is a byte-at-a-time automaton
    and the parser a partial function, both fields of [Platform]. *)

From Stdlib Require Import QArith.
From stdpp Require Import gmap strings list sorting pretty.
From Stdlib Require Import Strings.Byte.

Local Open Scope N_scope.
#[local] Set Warnings "-register-all".

(** ** JavaScript strings *)

Module Js.

(** A string is its sequence of UTF-16 code units. *)
Abbreviation jsstring := (list N).

Definition lit (s : string) : jsstring :=
  map Byte.to_N (String.list_byte_of_string s).

(** The separator "\n" and the field prefix "data: " of the source. *)
Definition NL : N := 10.
Definition DATA_PREFIX : jsstring := Eval cbv in lit "data: ".

(** [s.split(sep)] for a separator of one code unit.  The result is never
    empty: [''.split('\n')] is [['']]. *)
Fixpoint split (sep : N) (s : jsstring) : list jsstring :=
  match s with
  | [] => [[]]
  | c :: s' =>
      if c =? sep then [] :: split sep s'
      else match split sep s' with
           | [] => [[c]]
           | l :: ls => (c :: l) :: ls
           end
  end.

(** [arr.pop()]: the array without its last element, and that element
    ([undefined] on an empty array). *)
Definition pop {A} (arr : list A) : list A * option A :=
  (removelast arr, last arr).

(** The complete lines of a text, and the fragment after its last
    separator. *)
Definition lines_of (s : jsstring) : list jsstring := removelast (split NL s).
Definition fragment_of (s : jsstring) : jsstring := default [] (last (split NL s)).

(** Lines put end to end with the separator between them, and after the
    last one when [terminated]. *)
Fixpoint unlines (terminated : bool) (ls : list jsstring) : jsstring :=
  match ls with
  | [] => []
  | l :: ls' =>
      match ls' with
      | [] => if terminated then l ++ [NL] else l
      | _ :: _ => l ++ [NL] ++ unlines terminated ls'
      end
  end.

(** [s.startsWith(p)] *)
Fixpoint startsWith (s p : jsstring) {struct p} : bool :=
  match p, s with
  | [], _ => true
  | _ :: _, [] => false
  | a :: p', c :: s' => (c =? a) && startsWith s' p'
  end.

(** [s.slice(n)] for [0 <= n] *)
Definition slice (n : nat) (s : jsstring) : jsstring := drop n s.

(** ECMAScript WhiteSpace and LineTerminator code units, what [trim]
    strips. *)
Definition isWhiteSpace (c : N) : bool :=
  ((9 <=? c) && (c <=? 13)) || (c =? 32) || (c =? 160) || (c =? 5760)
  || ((8192 <=? c) && (c <=? 8202)) || (c =? 8232) || (c =? 8233)
  || (c =? 8239) || (c =? 8287) || (c =? 12288) || (c =? 65279).

Fixpoint trimStart (s : jsstring) : jsstring :=
  match s with
  | c :: s' => if isWhiteSpace c then trimStart s' else s
  | [] => []
  end.

Definition trimEnd (s : jsstring) : jsstring := rev (trimStart (rev s)).

Definition trim (s : jsstring) : jsstring := trimEnd (trimStart s).

(** Truthiness of a string: non-empty. *)
Definition truthy (s : jsstring) : bool :=
  match s with [] => false | _ => true end.

End Js.

Import Js.

(** ** The platform: [TextDecoder] and [JSON.parse] *)

(** [new TextDecoder()] used with [{ stream: true }] consumes its input one
    byte at a time and keeps the bytes of an unfinished character in its
    state; [dbyte] is that transition.  [JSON_parse] is [None] where
    [JSON.parse] throws. *)
Class Platform := {
  dstate : Type;
  dinit : dstate;
  dbyte : dstate → byte → dstate * jsstring;
  Event : Type;
  JSON_parse : jsstring → option Event;
}.

Module TextDecoder.

(** [decoder.decode(value, { stream: true })] *)
Fixpoint decode `{Platform} (d : dstate) (value : list byte)
    : dstate * jsstring :=
  match value with
  | [] => (d, [])
  | b :: bs =>
      let '(d1, t1) := dbyte d b in
      let '(d2, t2) := decode d1 bs in
      (d2, t1 ++ t2)
  end.

End TextDecoder.

(** *** The UTF-8 decoder of the Encoding standard *)

Module Utf8.

Record state := {
  code_point : N;
  bytes_seen : N;
  bytes_needed : N;
  lower : N;
  upper : N;
  bom_pending : bool;
}.

Definition fresh (bom : bool) : state :=
  {| code_point := 0; bytes_seen := 0; bytes_needed := 0;
     lower := 128; upper := 191; bom_pending := bom |}.

Definition init : state := fresh true.

Definition expect (n cp lo hi : N) : state :=
  {| code_point := cp; bytes_seen := 0; bytes_needed := n;
     lower := lo; upper := hi; bom_pending := false |}.

(** A byte read when no character is in progress; the code points it
    completes. *)
Definition lead (b : N) : state * list N :=
  if b <=? 127 then (fresh false, [b])
  else if (194 <=? b) && (b <=? 223) then (expect 1 (N.land b 31) 128 191, [])
  else if (224 <=? b) && (b <=? 239) then
    (expect 2 (N.land b 15) (if b =? 224 then 160 else 128)
                            (if b =? 237 then 159 else 191), [])
  else if (240 <=? b) && (b <=? 244) then
    (expect 3 (N.land b 7) (if b =? 240 then 144 else 128)
                           (if b =? 244 then 143 else 191), [])
  else (fresh false, [65533]).

Definition continue (s : state) (b : N) : state * list N :=
  if (b <? lower s) || (upper s <? b) then
    (* the byte is put back and read again as a lead byte *)
    let '(s', out) := lead b in (s', 65533 :: out)
  else
    let cp := N.lor (N.shiftl (code_point s) 6) (N.land b 63) in
    if bytes_seen s + 1 =? bytes_needed s then (fresh false, [cp])
    else ({| code_point := cp; bytes_seen := bytes_seen s + 1;
             bytes_needed := bytes_needed s;
             lower := 128; upper := 191; bom_pending := false |}, []).

(** A code point as UTF-16 code units. *)
Definition utf16 (cp : N) : jsstring :=
  if cp <? 65536 then [cp]
  else [55296 + N.shiftr (cp - 65536) 10; 56320 + N.land (cp - 65536) 1023].

(** The first code point of the stream is dropped when it is the byte order
    mark ([ignoreBOM] is false by default). *)
Definition emit (bom : bool) (cps : list N) : bool * jsstring :=
  match cps with
  | [] => (bom, [])
  | cp :: rest =>
      (false, flat_map utf16 (if bom && (cp =? 65279) then rest else cps))
  end.

Definition step (s : state) (byte : Byte.byte) : state * jsstring :=
  let b := Byte.to_N byte in
  let '(s', cps) :=
    if bytes_needed s =? 0 then lead b else continue s b in
  let '(bom', out) := emit (bom_pending s) cps in
  ({| code_point := code_point s'; bytes_seen := bytes_seen s';
      bytes_needed := bytes_needed s'; lower := lower s'; upper := upper s';
      bom_pending := bom' |}, out).

End Utf8.

(** *** [JSON.parse]

    The grammar of ECMA-404, as [JSON.parse] reads it: a run needs a
    parser, the results that hold for every stream are stated for any. *)

Module Json.

(** A value out of [JSON.parse].  A number is kept as its literal, the
    members of an object in the order written (a reader of a property takes
    the last member of that name). *)
Inductive value :=
| VNull
| VBool (b : bool)
| VNum (literal : jsstring)
| VStr (s : jsstring)
| VArr (items : list value)
| VObj (members : list (jsstring * value)).

(** JSON white space: tab, line feed, carriage return, space. *)
Definition isSpace (c : N) : bool :=
  (c =? 9) || (c =? 10) || (c =? 13) || (c =? 32).

Fixpoint skip (s : jsstring) : jsstring :=
  match s with
  | c :: s' => if isSpace c then skip s' else s
  | [] => []
  end.

Definition isDigit (c : N) : bool := (48 <=? c) && (c <=? 57).

Definition hex (c : N) : option N :=
  if isDigit c then Some (c - 48)
  else if (65 <=? c) && (c <=? 70) then Some (c - 55)
  else if (97 <=? c) && (c <=? 102) then Some (c - 87)
  else None.

(** The character a one-letter escape stands for. *)
Definition escape (c : N) : option N :=
  if c =? 34 then Some 34          (* quotation mark *)
  else if c =? 92 then Some 92     (* reverse solidus *)
  else if c =? 47 then Some 47     (* solidus *)
  else if c =? 98 then Some 8      (* b: backspace *)
  else if c =? 102 then Some 12    (* f: form feed *)
  else if c =? 110 then Some 10    (* n: line feed *)
  else if c =? 114 then Some 13    (* r: carriage return *)
  else if c =? 116 then Some 9     (* t: tab *)
  else None.

(** The rest of a string literal, after its opening quote: the string and
    what follows the closing quote. *)
Fixpoint chars (s : jsstring) (acc : jsstring) : option (jsstring * jsstring) :=
  match s with
  | [] => None
  | c :: rest =>
      if c =? 34 then Some (rev acc, rest)
      else if c =? 92 then
        match rest with
        | [] => None
        | e :: rest' =>
            if e =? 117 then
              match rest' with
              | h1 :: h2 :: h3 :: h4 :: rest'' =>
                  match hex h1, hex h2, hex h3, hex h4 with
                  | Some a, Some b, Some c, Some d =>
                      chars rest'' (((a * 16 + b) * 16 + c) * 16 + d :: acc)
                  | _, _, _, _ => None
                  end
              | _ => None
              end
            else
              match escape e with
              | Some x => chars rest' (x :: acc)
              | None => None
              end
        end
      else if c <? 32 then None
      else chars rest (c :: acc)
  end.

(** The digits at the head of a text, and what follows them. *)
Fixpoint digits (s : jsstring) : jsstring * jsstring :=
  match s with
  | c :: s' =>
      if isDigit c then let '(ds, rest) := digits s' in (c :: ds, rest)
      else ([], s)
  | [] => ([], [])
  end.

(** One or more digits. *)
Definition digits1 (s : jsstring) : option (jsstring * jsstring) :=
  match digits s with
  | ([], _) => None
  | found => Some found
  end.

(** A number literal: an optional minus sign; 0, or a digit from 1 to 9
    and any digits; optionally a point and one or more digits; optionally
    e or E, an optional sign, and one or more digits. *)
Definition number (s : jsstring) : option (jsstring * jsstring) :=
  let '(sign, s1) :=
    match s with
    | c :: s' => if c =? 45 then ([c], s') else ([], s)
    | [] => ([], s)
    end in
  '(int, s2) ←
    match s1 with
    | c :: s' =>
        if c =? 48 then Some ([c], s')
        else if isDigit c then digits1 s1
        else None
    | [] => None
    end;
  '(frac, s3) ←
    match s2 with
    | c :: s' =>
        if c =? 46 then '(ds, rest) ← digits1 s'; Some (c :: ds, rest)
        else Some ([], s2)
    | [] => Some ([], s2)
    end;
  '(exp, s4) ←
    match s3 with
    | c :: s' =>
        if (c =? 101) || (c =? 69) then
          let '(esign, s'') :=
            match s' with
            | x :: t => if (x =? 43) || (x =? 45) then ([x], t) else ([], s')
            | [] => ([], s')
            end in
          '(ds, rest) ← digits1 s''; Some (c :: esign ++ ds, rest)
        else Some ([], s3)
    | [] => Some ([], s3)
    end;
  Some (sign ++ int ++ frac ++ exp, s4).

(** A word of the grammar at the head of the text. *)
Fixpoint word (w s : jsstring) : option jsstring :=
  match w, s with
  | [], _ => Some s
  | a :: w', c :: s' => if c =? a then word w' s' else None
  | _ :: _, [] => None
  end.

(** A value at the head of the text, and what follows it.  [fuel] bounds
    the number of values and separators met. *)
Fixpoint parse_value (fuel : nat) (s : jsstring)
    : option (value * jsstring) :=
  match fuel with
  | O => None
  | S fuel' =>
      match s with
      | [] => None
      | c :: rest =>
          if c =? 110 then (VNull,.) <$> word (lit "null") s
          else if c =? 116 then (VBool true,.) <$> word (lit "true") s
          else if c =? 102 then (VBool false,.) <$> word (lit "false") s
          else if c =? 34 then
            '(str, after) ← chars rest []; Some (VStr str, after)
          else if c =? 91 then
            match skip rest with
            | x :: after =>
                if x =? 93 then Some (VArr [], after)
                else parse_elements fuel' (x :: after) []
            | [] => None
            end
          else if c =? 123 then
            match skip rest with
            | x :: after =>
                if x =? 125 then Some (VObj [], after)
                else parse_members fuel' (x :: after) []
            | [] => None
            end
          else '(literal, after) ← number s; Some (VNum literal, after)
      end
  end
with parse_elements (fuel : nat) (s : jsstring) (acc : list value)
    : option (value * jsstring) :=
  match fuel with
  | O => None
  | S fuel' =>
      '(v, after) ← parse_value fuel' s;
      match skip after with
      | x :: after' =>
          if x =? 44 then parse_elements fuel' (skip after') (v :: acc)
          else if x =? 93 then Some (VArr (rev (v :: acc)), after')
          else None
      | [] => None
      end
  end
with parse_members (fuel : nat) (s : jsstring)
    (acc : list (jsstring * value)) : option (value * jsstring) :=
  match fuel with
  | O => None
  | S fuel' =>
      match s with
      | c :: rest =>
          if c =? 34 then
            '(key, after) ← chars rest [];
            match skip after with
            | x :: after' =>
                if x =? 58 then
                  '(v, after'') ← parse_value fuel' (skip after');
                  match skip after'' with
                  | y :: more =>
                      if y =? 44 then
                        parse_members fuel' (skip more) ((key, v) :: acc)
                      else if y =? 125 then
                        Some (VObj (rev ((key, v) :: acc)), more)
                      else None
                  | [] => None
                  end
                else None
            | [] => None
            end
          else None
      | [] => None
      end
  end.

(** [JSON.parse(text)]; [None] where it throws. *)
Definition parse (text : jsstring) : option value :=
  match parse_value (2 * length text + 2) (skip text) with
  | Some (v, after) =>
      match skip after with
      | [] => Some v
      | _ :: _ => None
      end
  | None => None
  end.


End Json.

(** ** The SSE decoder: [parseSSEStream] *)

Module Sse.
Section Decoder.
Context `{Platform}.

(** What the generator does that its caller or the console can see: an
    event yielded, or a payload reported with [console.error] ([true] for
    the report made after the read loop). *)
Inductive Out :=
| Yield (e : Event)
| ConsoleError (final : bool) (data : jsstring).

(** The body of [if (data) { try { yield JSON.parse(data) } catch ... }]. *)
Definition on_data (final : bool) (data : jsstring) : list Out :=
  if truthy data then
    match JSON_parse data with
    | Some event => [Yield event]
    | None => [ConsoleError final data]
    end
  else [].

(** The body of [if (line.startsWith("data: ")) ...], the same for a line
    of the loop and for the buffer left at the end of the stream. *)
Definition on_line (final : bool) (line : jsstring) : list Out :=
  if startsWith line DATA_PREFIX then on_data final (trim (slice 6 line))
  else [].

(** The [while (true)] loop over [reader.read()] and, once the reader is
    done, the check of the remaining buffer.  [chunks] are the values the
    reader still has to deliver. *)
Fixpoint read_loop (d : dstate) (buffer : jsstring)
    (chunks : list (list byte)) : list Out :=
  match chunks with
  | [] => on_line true buffer
  | value :: chunks' =>
      let '(d', text) := TextDecoder.decode d value in
      let buffer := buffer ++ text in
      let '(lines, fragment) := pop (split NL buffer) in
      let buffer := default [] fragment in
      flat_map (on_line false) lines ++ read_loop d' buffer chunks'
  end.

Definition yields (outs : list Out) : list Event :=
  omap (λ o, match o with Yield e => Some e | ConsoleError _ _ => None end) outs.

Definition consoleErrors (outs : list Out) : list jsstring :=
  omap (λ o, match o with Yield _ => None | ConsoleError _ d => Some d end) outs.

(** Everything the generator does when it is run to its end. *)
Definition parseSSEStream_outs (chunks : list (list byte)) : list Out :=
  read_loop dinit [] chunks.

(** The events of [for await (const event of parseSSEStream(response))]. *)
Definition parseSSEStream (chunks : list (list byte)) : list Event :=
  yields (parseSSEStream_outs chunks).

(** The text of a whole stream. *)
Definition text_of (bytes : list byte) : jsstring :=
  (TextDecoder.decode dinit bytes).2.

(** The text of a stream of [data: ] lines carrying [payloads]; the last
    line ends with a separator when [terminated]. *)
Definition data_lines (terminated : bool) (payloads : list jsstring)
    : jsstring :=
  unlines terminated (map (app DATA_PREFIX) payloads).

(** The outputs of a text: its complete lines, then its last fragment. *)
Definition outs_of_text (t : jsstring) : list Out :=
  flat_map (on_line false) (lines_of t) ++ on_line true (fragment_of t).

(** [response.body]: the chunks its reader delivers, and how the read
    after the last of them answers: with [done], or, when [body_failure]
    holds a message, by rejecting with an [Error] of that message, as when
    the connection drops. *)
Record Stream := {
  body_chunks : list (list byte);
  body_failure : option string;
}.

(** A body that ends well. *)
Definition closing (chunks : list (list byte)) : Stream :=
  {| body_chunks := chunks; body_failure := None |}.

(** The [while (true)] loop when the read after the last chunk rejects: the
    exception leaves the loop, and the check of the remaining buffer is not
    reached. *)
Fixpoint read_until_failure (d : dstate) (buffer : jsstring)
    (chunks : list (list byte)) : list Out :=
  match chunks with
  | [] => []
  | value :: chunks' =>
      let '(d', text) := TextDecoder.decode d value in
      let buffer := buffer ++ text in
      let '(lines, fragment) := pop (split NL buffer) in
      let buffer := default [] fragment in
      flat_map (on_line false) lines ++ read_until_failure d' buffer chunks'
  end.

(** What the generator does from a point of the loop on, for either end of
    the body. *)
Definition loop_outs (failure : option string) (d : dstate)
    (buffer : jsstring) (chunks : list (list byte)) : list Out :=
  match failure with
  | None => read_loop d buffer chunks
  | Some _ => read_until_failure d buffer chunks
  end.

(** The events of a body, up to its end or to the failing read. *)
Definition stream_events (s : Stream) : list Event :=
  yields (loop_outs (body_failure s) dinit [] (body_chunks s)).

(** *** The generator, one [next()] at a time

    The same function as a resumable computation: where it is suspended,
    what it still holds, and the calls it has made on the reader and the
    console so far. *)

(** The calls a reader takes, and [console.error].  [Cancel] is
    [reader.cancel()]: the source of the relay holds a call of it,
    [parseSSEStream] has none. *)
Inductive Effect :=
| GetReader
| Read
| ReleaseLock
| Cancel
| Console (final : bool) (data : jsstring).

#[global] Instance Effect_eq_dec : EqDecision Effect.
Proof. solve_decision. Defined.

(** Where the generator stands between two calls. *)
Inductive Phase :=
| Start (body : option (list (list byte)))
    (* created, nothing run yet; [body] is [response.body] *)
| AtLineYield (rest : list jsstring)
    (* at the [yield] of the [for] loop, with the lines not yet visited *)
| AtFinalYield
    (* at the [yield] that follows the read loop *)
| Closed.

Record Gen := {
  phase : Phase;
  pending : list (list byte);   (* what the reader has not delivered yet *)
  failure : option string;      (* how the read after them answers *)
  dec : dstate;
  buffer : jsstring;
  effects : list Effect;
}.

Inductive IterResult :=
| Value (e : Event)
| Done
| Thrown (message : string).

Definition create (response_body : option Stream) : Gen :=
  {| phase := Start (body_chunks <$> response_body); pending := [];
     failure := response_body ≫= body_failure; dec := dinit;
     buffer := []; effects := [] |}.

(** [for (const line of lines)] up to its next [yield]. *)
Fixpoint for_lines (lines : list jsstring)
    : list Effect * option (Event * list jsstring) :=
  match lines with
  | [] => ([], None)
  | line :: rest =>
      match on_line false line with
      | Yield e :: _ => ([], Some (e, rest))
      | ConsoleError f d :: _ =>
          let '(fx, r) := for_lines rest in (Console f d :: fx, r)
      | [] => for_lines rest
      end
  end.

(** Where the read loop stops next. *)
Inductive Stop :=
| StopLine (e : Event) (rest : list jsstring) (d : dstate)
    (buffer : jsstring) (chunks : list (list byte))
| StopFinal (e : Event) (d : dstate) (buffer : jsstring)
| StopEnd (d : dstate) (buffer : jsstring)
| StopThrow (message : string) (d : dstate) (buffer : jsstring).

Fixpoint while_read (failure : option string) (d : dstate)
    (buffer : jsstring) (chunks : list (list byte)) : list Effect * Stop :=
  match chunks with
  | [] =>
      match failure with
      | Some message => ([Read], StopThrow message d buffer)
      | None =>
          match on_line true buffer with
          | Yield e :: _ => ([Read], StopFinal e d buffer)
          | ConsoleError f data :: _ =>
              ([Read; Console f data], StopEnd d buffer)
          | [] => ([Read], StopEnd d buffer)
          end
      end
  | value :: chunks' =>
      let '(d', text) := TextDecoder.decode d value in
      let buffer := buffer ++ text in
      let '(lines, fragment) := pop (split NL buffer) in
      let buffer := default [] fragment in
      match for_lines lines with
      | (fx, Some (e, rest)) => (Read :: fx, StopLine e rest d' buffer chunks')
      | (fx, None) =>
          let '(fx', stop) := while_read failure d' buffer chunks' in
          (Read :: fx ++ fx', stop)
      end
  end.

(** Resume the read loop of [g] and suspend or finish; [fx] are the effects
    made since the resumption.  A read that rejects leaves through the
    [finally] block. *)
Definition resume_reads (g : Gen) (fx : list Effect) (d : dstate)
    (buffer : jsstring) (chunks : list (list byte)) : IterResult * Gen :=
  match while_read (failure g) d buffer chunks with
  | (fx', StopLine e rest d' buffer' chunks') =>
      (Value e, {| phase := AtLineYield rest; pending := chunks';
                   failure := failure g; dec := d';
                   buffer := buffer'; effects := effects g ++ fx ++ fx' |})
  | (fx', StopFinal e d' buffer') =>
      (Value e, {| phase := AtFinalYield; pending := [];
                   failure := failure g; dec := d';
                   buffer := buffer'; effects := effects g ++ fx ++ fx' |})
  | (fx', StopEnd d' buffer') =>
      (Done, {| phase := Closed; pending := []; failure := failure g;
                dec := d'; buffer := buffer';
                effects := effects g ++ fx ++ fx' ++ [ReleaseLock] |})
  | (fx', StopThrow message d' buffer') =>
      (Thrown message,
       {| phase := Closed; pending := []; failure := failure g;
          dec := d'; buffer := buffer';
          effects := effects g ++ fx ++ fx' ++ [ReleaseLock] |})
  end.

(** [gen.next()] *)
Definition next (g : Gen) : IterResult * Gen :=
  match phase g with
  | Start None =>
      (Thrown "No response body",
       {| phase := Closed; pending := []; failure := failure g;
          dec := dec g; buffer := buffer g; effects := effects g |})
  | Start (Some chunks) => resume_reads g [GetReader] (dec g) (buffer g) chunks
  | AtLineYield lines =>
      match for_lines lines with
      | (fx, Some (e, rest)) =>
          (Value e, {| phase := AtLineYield rest; pending := pending g;
                       failure := failure g; dec := dec g;
                       buffer := buffer g; effects := effects g ++ fx |})
      | (fx, None) => resume_reads g fx (dec g) (buffer g) (pending g)
      end
  | AtFinalYield =>
      (Done, {| phase := Closed; pending := pending g; failure := failure g;
                dec := dec g; buffer := buffer g;
                effects := effects g ++ [ReleaseLock] |})
  | Closed => (Done, g)
  end.

(** [gen.return()]: a generator suspended at a [yield] of the [try] block
    runs its [finally]; one that never started, or has finished, runs
    nothing. *)
Definition return_ (g : Gen) : Gen :=
  match phase g with
  | AtLineYield _ | AtFinalYield =>
      {| phase := Closed; pending := pending g; failure := failure g;
         dec := dec g; buffer := buffer g;
         effects := effects g ++ [ReleaseLock] |}
  | Start _ | Closed =>
      {| phase := Closed; pending := pending g; failure := failure g;
         dec := dec g; buffer := buffer g; effects := effects g |}
  end.

(** How a [for await] loop over the generator ended. *)
Inductive Ending := Exhausted | Abandoned | Failed (message : string).

(** [for await (const event of gen) { events.push(event); if (...) break }]:
    [stop] is the loop body's decision to [break], taken on the events
    received so far.  The loops of [server.ts] never break. *)
Fixpoint for_await (fuel : nat) (stop : list Event → bool) (g : Gen)
    (events : list Event) : option (list Event * Gen * Ending) :=
  match fuel with
  | O => None
  | S fuel' =>
      match next g with
      | (Value e, g') =>
          let events := events ++ [e] in
          if stop events then Some (events, return_ g', Abandoned)
          else for_await fuel' stop g' events
      | (Done, g') => Some (events, g', Exhausted)
      | (Thrown m, g') => Some (events, g', Failed m)
      end
  end.

(** How many times a call was made. *)
Definition count (x : Effect) (fx : list Effect) : nat :=
  length (filter (x =.) fx).

(** What a suspended generator would still yield. *)
Definition remaining (g : Gen) : list Event :=
  match phase g with
  | Start (Some chunks) =>
      yields (loop_outs (failure g) (dec g) (buffer g) chunks)
  | AtLineYield rest =>
      yields (flat_map (on_line false) rest
              ++ loop_outs (failure g) (dec g) (buffer g) (pending g))
  | _ => []
  end.

(** A generator suspended at a [yield], on a stream of [n] chunks: the
    reader was taken once and is still locked, and every chunk is either
    read or still pending; at the last [yield] the body has ended well. *)
Definition holds_lock (n : nat) (g : Gen) : Prop :=
  count GetReader (effects g) = 1%nat
  ∧ count ReleaseLock (effects g) = 0%nat
  ∧ count Cancel (effects g) = 0%nat
  ∧ match phase g with
    | AtLineYield _ => (count Read (effects g) + length (pending g))%nat = n
    | AtFinalYield =>
        count Read (effects g) = S n ∧ pending g = [] ∧ failure g = None
    | _ => False
    end.

Definition released_once (g : Gen) : Prop :=
  phase g = Closed
  ∧ count GetReader (effects g) = 1%nat
  ∧ count ReleaseLock (effects g) = 1%nat
  ∧ count Cancel (effects g) = 0%nat.

(** Effects that leave the lock alone. *)
Definition passive (fx : list Effect) : Prop :=
  count GetReader fx = 0%nat ∧ count ReleaseLock fx = 0%nat
  ∧ count Cancel fx = 0%nat.

(** How a loop over a stream of [n] chunks can end, given what was still to
    be yielded and how the body ends. *)
Definition ended (n : nat) (failure : option string)
    (stop : list Event → bool) (todo : list Event)
    (acc events : list Event) (g : Gen) (how : Ending) : Prop :=
  released_once g
  ∧ match how with
    | Exhausted =>
        failure = None
        ∧ events = acc ++ todo ∧ count Read (effects g) = S n ∧ pending g = []
    | Abandoned =>
        (∃ got, got `prefix_of` todo ∧ events = acc ++ got)
        ∧ stop events = true
        ∧ ((count Read (effects g) + length (pending g))%nat = n
           ∨ (count Read (effects g) = S n ∧ pending g = []))
    | Failed message =>
        failure = Some message
        ∧ events = acc ++ todo ∧ count Read (effects g) = S n ∧ pending g = []
    end.

End Decoder.
End Sse.

(** ** The step state fold of the test runner UI, and the run status of the
    tool handlers *)

Module Runner.

Local Open Scope Z_scope.

(** An event as the handlers and the UI read it: the fields of the
    [SSEEvent] interface of [test-runner.ts], and [summary] of
    [RunCompletedEvent] that [server.ts] reads.  A field that is absent, or
    [null], is [None]: the code tells them apart nowhere.  Numbers are the
    integers the backend sends. *)
Record SSEEvent := {
  type : string;
  run_id : option Z;
  total_steps : option Z;
  step_number : option Z;
  action : option string;
  target : option string;
  value : option string;
  status : option string;
  duration : option Z;
  error : option string;
  screenshot : option string;
  retried : option bool;
  summary : option string;
}.

Record StepState := {
  number : Z;
  s_action : string;
  s_target : option string;
  s_value : option string;
  s_status : string;
  s_duration : Z;
  s_error : option string;
  s_screenshot : option string;
  s_retried : option bool;
}.

(** [x || dflt] on an optional string: the empty string is falsy. *)
Definition or_string (x : option string) (dflt : string) : string :=
  match x with
  | Some s => if decide (s = "") then dflt else s
  | None => dflt
  end.

(** [x || null] *)
Definition or_null (x : option string) : option string :=
  match x with
  | Some s => if decide (s = "") then None else Some s
  | None => None
  end.

(** [x || 0] on an optional number. *)
Definition or_zero (x : option Z) : Z := default 0 x.

(** [if (event.step_number)]: the number when it is truthy, that is present
    and not 0. *)
Definition truthy_number (x : option Z) : option Z :=
  match x with
  | Some n => if decide (n = 0) then None else Some n
  | None => None
  end.

(** What [showSummary] displays. *)
Record Summary := {
  testFailed : bool;
  passed : nat;
  failed : nat;
  totalDuration : Z;
}.

(** The module state [steps] and the two elements of the page the fold
    writes to; the page itself ([ui/test-runner.html]) is not part of the
    sources, so an element may be absent ([None]).  [stepsEl] holds the
    steps handed to [renderStep], in order; [summaryEl] what the summary
    box shows, if it has been displayed. *)
Record UI := {
  steps : gmap Z StepState;
  stepsEl : option (list StepState);
  summaryEl : option (option Summary);
  errorText : option string;
}.

Definition with_steps (m : gmap Z StepState) (ui : UI) : UI :=
  {| steps := m; stepsEl := stepsEl ui; summaryEl := summaryEl ui;
     errorText := errorText ui |}.

(** [Array.from(steps.values())]; the order is settled by the sort. *)
Definition values (m : gmap Z StepState) : list StepState :=
  (map_to_list m).*2.

(** The comparator [(a, b) => a.number - b.number]. *)
Definition by_number (a b : StepState) : Prop := number a ≤ number b.

#[global] Instance by_number_dec a b : Decision (by_number a b).
Proof. unfold by_number. apply _. Defined.

Definition updateStepsList (ui : UI) : UI :=
  match stepsEl ui with
  | None => ui
  | Some _ =>
      {| steps := steps ui;
         stepsEl := Some (merge_sort by_number (values (steps ui)));
         summaryEl := summaryEl ui; errorText := errorText ui |}
  end.

Definition showSummary (ui : UI) : UI :=
  match summaryEl ui with
  | None => ui
  | Some _ =>
      let vs := values (steps ui) in
      let passed := length (filter (λ s, s_status s = "passed") vs) in
      let failed :=
        length (filter (λ s, s_status s = "failed" ∨ s_status s = "skipped") vs) in
      let duration := foldr (λ s acc, s_duration s + acc) 0 vs in
      {| steps := steps ui; stepsEl := stepsEl ui;
         summaryEl := Some (Some {| testFailed := bool_decide (0 < failed)%nat;
                                    passed := passed; failed := failed;
                                    totalDuration := duration |});
         errorText := errorText ui |}
  end.

Definition processEvent (event : SSEEvent) (ui : UI) : UI :=
  if decide (type event = "run_started") then ui
  else if decide (type event = "step_started") then
    match truthy_number (step_number event) with
    | Some n =>
        updateStepsList
          (with_steps
             (<[n := {| number := n;
                        s_action := or_string (action event) "unknown";
                        s_target := or_null (target event);
                        s_value := or_null (value event);
                        s_status := "running";
                        s_duration := 0;
                        s_error := None; s_screenshot := None;
                        s_retried := None |}]> (steps ui)) ui)
    | None => ui
    end
  else if decide (type event = "step_completed") then
    match truthy_number (step_number event) with
    | Some n =>
        match steps ui !! n with
        | Some step =>
            updateStepsList
              (with_steps
                 (<[n := {| number := number step;
                            s_action := s_action step;
                            s_target := s_target step;
                            s_value := s_value step;
                            s_status := or_string (status event) "passed";
                            s_duration := or_zero (duration event);
                            s_error := error event;
                            s_screenshot := screenshot event;
                            s_retried := retried event |}]> (steps ui)) ui)
        | None => ui
        end
    | None => ui
    end
  else if decide (type event = "run_completed") then showSummary ui
  else ui.

(** [events.forEach(processEvent)] *)
Definition forEach (events : list SSEEvent) (ui : UI) : UI :=
  foldl (λ ui e, processEvent e ui) ui events.

Record TestRunnerData := {
  d_events : option (list SSEEvent);
  d_error : option string;
}.

Definition processToolResult (data : TestRunnerData) (ui : UI) : UI :=
  match or_null (d_error data) with
  | Some e =>
      {| steps := steps ui; stepsEl := stepsEl ui; summaryEl := summaryEl ui;
         errorText := Some ("Error: " +:+ e) |}
  | None => forEach (default [] (d_events data)) (with_steps ∅ ui)
  end.

(** *** The status the tool handlers report ([run_test], [run_natural_test]) *)

(** [events.find((e) => e.type === "run_completed")] *)
Definition completedEvent (events : list SSEEvent) : option SSEEvent :=
  List.find (λ e, bool_decide (type e = "run_completed")) events.

(** [completedEvent?.type === "run_completed" ? completedEvent.status : "unknown"];
    [None] is [undefined]. *)
Definition run_status (events : list SSEEvent) : option string :=
  match completedEvent events with
  | Some e =>
      if decide (type e = "run_completed") then status e else Some "unknown"
  | None => Some "unknown"
  end.

Definition run_summary (events : list SSEEvent) : option string :=
  match completedEvent events with
  | Some e =>
      if decide (type e = "run_completed") then summary e
      else Some "Test completed"
  | None => Some "Test completed"
  end.

End Runner.

(** ** The relay: the proxy handlers of [server.ts] *)

Module Relay.

Local Open Scope Z_scope.

(** *** Request bodies *)

(** A number out of [JSON.parse]: finite, or an infinity for a literal
    beyond the range of doubles; never NaN. *)
Inductive JsNum := Finite (q : Q) | PosInfinity | NegInfinity.

(** [req.body] as [express.json()] leaves it. *)
Inductive JSON :=
| JNull
| JBool (b : bool)
| JNum (n : JsNum)
| JStr (s : string)
| JArr (items : list JSON)
| JObj (fields : list (string * JSON)).

Definition isInteger (n : JsNum) : bool :=
  match n with
  | Finite q => Qnum q mod Zpos (Qden q) =? 0
  | _ => false
  end.

Definition isPositive (n : JsNum) : bool :=
  match n with
  | Finite q => 0 <? Qnum q
  | PosInfinity => true
  | NegInfinity => false
  end.

(** Truthiness of a value, [undefined] being [None]. *)
Definition truthy (v : option JSON) : bool :=
  match v with
  | None | Some JNull => false
  | Some (JBool b) => b
  | Some (JNum (Finite q)) => negb (Qnum q =? 0)
  | Some (JNum _) => true
  | Some (JStr s) => negb (bool_decide (s = ""))
  | Some (JArr _) | Some (JObj _) => true
  end.

Fixpoint assoc (k : string) (fields : list (string * JSON)) : option JSON :=
  match fields with
  | [] => None
  | (k', v) :: rest => if decide (k = k') then Some v else assoc k rest
  end.

(** [body.k], [undefined] on anything that is not an object. *)
Definition prop (k : string) (body : JSON) : option JSON :=
  match body with
  | JObj fields => assoc k fields
  | _ => None
  end.

(** [const { k1, k2, ... } = body] followed by [{ k1, k2, ... }]: the
    properties in the order written.  One that is [undefined] is left out
    here, as [JSON.stringify] and zod both leave it out. *)
Definition pick (keys : list string) (body : JSON) : JSON :=
  JObj (omap (λ k, (k,.) <$> prop k body) keys).

(** The value the text [JSON.stringify(v)] denotes: a number that is not
    finite is written [null]; everything else that [express.json()] can
    deliver is written as it is. *)
Fixpoint JSON_stringify (v : JSON) : JSON :=
  match v with
  | JNum (Finite _) => v
  | JNum _ => JNull
  | JArr items => JArr (map JSON_stringify items)
  | JObj fields => JObj (map (λ kv, (kv.1, JSON_stringify kv.2)) fields)
  | _ => v
  end.

(** *** The zod schemas *)

Inductive NumCheck := Int | Positive.

(** The schema combinators the source uses. *)
Inductive Schema :=
| ZNumber (checks : list NumCheck)
| ZString
| ZEnum (options : list string)
| ZArray (item : Schema) (min : option nat)
| ZOptional (inner : Schema)
| ZObject (shape : list (string * Schema)).

Inductive IssueCode := invalid_type | too_small | invalid_enum_value.

Inductive PathItem := Key (k : string) | Index (i : nat).

Record Issue := { code : IssueCode; path : list PathItem }.

Definition check_number (p : list PathItem) (n : JsNum) (c : NumCheck)
    : list Issue :=
  match c with
  | Int => if isInteger n then [] else [{| code := invalid_type; path := p |}]
  | Positive => if isPositive n then [] else [{| code := too_small; path := p |}]
  end.

(** The issues of the elements of an array, each at its index. *)
Definition each {A} (check : nat → A → list Issue)
    : nat → list A → list Issue :=
  fix go i l :=
    match l with
    | [] => []
    | x :: l' => check i x ++ go (S i) l'
    end.

(** The issues [schema.safeParse] finds in a value at path [p]; [None] is a
    missing property. *)
Fixpoint issues (s : Schema) (p : list PathItem) (v : option JSON)
    : list Issue :=
  match s, v with
  | ZOptional _, None => []
  | ZOptional inner, Some _ => issues inner p v
  | ZNumber checks, Some (JNum n) => flat_map (check_number p n) checks
  | ZString, Some (JStr _) => []
  | ZEnum options, Some (JStr x) =>
      if bool_decide (x ∈ options) then []
      else [{| code := invalid_enum_value; path := p |}]
  | ZArray item min, Some (JArr items) =>
      (match min with
       | Some m =>
           if (length items <? m)%nat then [{| code := too_small; path := p |}]
           else []
       | None => []
       end)
      ++ each (λ i x, issues item (p ++ [Index i]) (Some x)) 0%nat items
  | ZObject shape, Some (JObj fields) =>
      flat_map (λ '(k, sk), issues sk (p ++ [Key k]) (assoc k fields)) shape
  | _, _ => [{| code := invalid_type; path := p |}]
  end.

Definition keys (s : Schema) : list string :=
  match s with ZObject shape => shape.*1 | _ => [] end.

(** [schema.safeParse(body)]: the issues, or the data, which for an object
    schema keeps the properties of the shape only. *)
Definition safeParse (s : Schema) (body : JSON) : list Issue + JSON :=
  match issues s [] (Some body) with
  | [] => inr (pick (keys s) body)
  | found => inl found
  end.

Definition browserSchema : Schema :=
  ZOptional (ZEnum ["chromium"; "chromium-headless"; "firefox";
                    "firefox-headless"; "webkit"; "webkit-headless"]).

Definition testCaseRunSchema : Schema :=
  ZObject [("browser", browserSchema)].

Definition executeStepsSchema : Schema :=
  ZObject [("project_id", ZNumber [Int; Positive]);
           ("steps", ZArray ZString (Some 1%nat));
           ("browser", browserSchema);
           ("fixture_ids", ZOptional (ZArray (ZNumber [Int; Positive]) None))].

(** *** What the relay is said to require of a request

    The description of the downstream protocol asks for numeric positive
    identifiers, non-empty step lists and a closed set of browser engine
    names.  The predicates of this part follow that description, not the
    code; the results compare them with the schemas above. *)

Definition browsers : list string :=
  ["chromium"; "chromium-headless"; "firefox"; "firefox-headless";
   "webkit"; "webkit-headless"].

Definition isPositiveInteger (v : option JSON) : bool :=
  match v with
  | Some (JNum n) => isInteger n && isPositive n
  | _ => false
  end.

Definition isString (v : JSON) : bool :=
  match v with JStr _ => true | _ => false end.

Definition isStepList (v : option JSON) : bool :=
  match v with
  | Some (JArr items) => (1 <=? length items)%nat && forallb isString items
  | _ => false
  end.

Definition isBrowserOrAbsent (v : option JSON) : bool :=
  match v with
  | None => true
  | Some (JStr name) => bool_decide (name ∈ browsers)
  | Some _ => false
  end.

Definition isIdListOrAbsent (v : option JSON) : bool :=
  match v with
  | None => true
  | Some (JArr items) => forallb (λ x, isPositiveInteger (Some x)) items
  | Some _ => false
  end.

Definition isObject (v : JSON) : bool :=
  match v with JObj _ => true | _ => false end.

Definition runBodyOk (body : JSON) : bool :=
  isObject body && isBrowserOrAbsent (prop "browser" body).

Definition executeBodyOk (body : JSON) : bool :=
  isObject body
  && isPositiveInteger (prop "project_id" body)
  && isStepList (prop "steps" body)
  && isBrowserOrAbsent (prop "browser" body)
  && isIdListOrAbsent (prop "fixture_ids" body).

(** *** [parseInt(s, 10)]

    [parseInt] is modelled by the integer its digits denote, [None] for
    NaN.  The Number the program holds is that integer rounded to a
    double: the rounding gives no NaN and keeps the sign, so the test
    [isNaN(id) || id <= 0] is the one on the integer; what differs from
    the integer is the text of the Number, see [numberText]. *)

Definition digit (c : N) : option Z :=
  if ((48 <=? c) && (c <=? 57))%N then Some (Z.of_N (c - 48)) else None.

Fixpoint digits (s : jsstring) (acc : option Z) : option Z :=
  match s with
  | c :: s' =>
      match digit c with
      | Some d => digits s' (Some (10 * default 0 acc + d))
      | None => acc
      end
  | [] => acc
  end.

Definition parseInt (s : jsstring) : option Z :=
  match trimStart s with
  | 45%N :: s' => Z.opp <$> digits s' None
  | 43%N :: s' => digits s' None
  | s' => digits s' None
  end.


(** *** Upstream and downstream *)

(** A value thrown: an [Error] with its message, or anything else. *)
Inductive Thrown := ErrorObject (message : string) | OtherValue.

(** How the upstream body ends: the reader reports [done], or a read
    rejects. *)
Inductive StreamEnd := Closes | Breaks (err : Thrown).

Record Body := { chunks : list (list byte); ending : StreamEnd }.

Record Response := {
  r_status : Z;
  statusText : string;
  r_body : option Body;
}.

(** [response.ok] *)
Definition ok (r : Response) : bool :=
  (200 <=? r_status r) && (r_status r <=? 299).

Inductive FetchOutcome := Rejects (err : Thrown) | Resolves (r : Response).

(** What surrounds one execution of a handler: the configured backend, how
    it answers a request, and the text the platform prints for the Number
    of an integer too large to be held exactly. *)
Record World := {
  CHECKMATE_URL : string;
  fetch : jsstring → JSON → FetchOutcome;
  inexactText : Z → jsstring;
}.

(** The template literal [`${id}`] for the Number [parseInt] returned for
    the integer [n], [0 < n].  A Number is a double: below 2^53 it is [n]
    itself, printed with its decimal digits; from 2^53 on it is [n] rounded
    (…992 for 2^53 + 1), and printed in exponent form from 1e21: that text
    is left to the platform. *)
Definition numberText (w : World) (n : Z) : jsstring :=
  if n <? 2 ^ 53 then lit (pretty n) else inexactText w n.

(** The body of a JSON error response. *)
Record ErrorBody := { e_error : string; e_details : option (list Issue) }.

(** The calls a handler makes on upstream and on [res], in order.  Logging
    is left out.  [Cancel] is the call of the [close] listener, which no
    run makes (see [pump]). *)
Inductive Effect :=
| Fetch (url : jsstring) (body : JSON)
| StatusJson (status : Z) (payload : ErrorBody)   (* res.status(..).json(..) *)
| SetHeader (name value : string)
| FlushHeaders
| Read                                            (* reader.read() *)
| Write (value : list byte)                       (* res.write(value) *)
| End                                             (* res.end() *)
| Cancel.                                         (* reader.cancel() *)

(** [error instanceof Error ? error.message : "Proxy error"] *)
Definition message_of (err : Thrown) : string :=
  match err with
  | ErrorObject m => m
  | OtherValue => "Proxy error"
  end.

(** [pump()]: a read that delivers a value is followed by its write, until
    a read reports [done] or rejects.

    The handler also installs [req.on("close", () => reader.cancel())], but
    on a request that [express.json()] has read to its end: the [close]
    event of the request has passed by then, the listener never runs and
    [reader.cancel()] is never called.  A downstream that leaves does not
    stop the loop; [res.write] on the closed connection does not throw. *)
Fixpoint pump (chunks : list (list byte)) (ending : StreamEnd)
    : list Effect * option Thrown :=
  match chunks with
  | [] =>
      match ending with
      | Closes => ([Read; End], None)
      | Breaks err => ([Read], Some err)
      end
  | value :: rest =>
      let '(fx, thrown) := pump rest ending in
      (Read :: Write value :: fx, thrown)
  end.

Definition sseHeaders : list Effect :=
  [SetHeader "Content-Type" "text/event-stream";
   SetHeader "Cache-Control" "no-cache";
   SetHeader "Connection" "keep-alive";
   FlushHeaders].

(** The [try { ... } catch (error) { ... }] block, the same in both
    handlers and in both revisions of [server.ts]. *)
Definition forward (w : World) (url : jsstring) (body : JSON) : list Effect :=
  Fetch url body ::
  match fetch w url body with
  | Rejects err =>
      [StatusJson 500 {| e_error := message_of err; e_details := None |}]
  | Resolves response =>
      if negb (ok response) then
        [StatusJson (r_status response)
           {| e_error := "Checkmate API error: " +:+ statusText response;
              e_details := None |}]
      else
        sseHeaders ++
        match r_body response with
        | None => [End]
        | Some b =>
            let '(fx, thrown) := pump (chunks b) (ending b) in
            fx ++
            match thrown with
            | None => []
            | Some err =>
                [StatusJson 500 {| e_error := message_of err;
                                   e_details := None |}]
            end
        end
  end.

Definition runsStreamUrl (w : World) (testCaseId : jsstring) : jsstring :=
  lit (CHECKMATE_URL w) ++ lit "/api/test-cases/" ++ testCaseId
    ++ lit "/runs/stream".

Definition executeStreamUrl (w : World) : jsstring :=
  lit (CHECKMATE_URL w) ++ lit "/api/test-runs/execute/stream".

(** [JSON.stringify({ browser: browser || "chromium-headless" })] *)
Definition browserBody (browser : option JSON) : JSON :=
  JSON_stringify
    (JObj [("browser",
            match browser with
            | Some b => if truthy browser then b else JStr "chromium-headless"
            | None => JStr "chromium-headless"
            end)]).

Definition executeKeys : list string :=
  ["project_id"; "steps"; "browser"; "fixture_ids"].

(** [JSON.stringify({ project_id, steps, browser, fixture_ids })] *)
Definition executeBody (data : JSON) : JSON :=
  JSON_stringify (pick executeKeys data).

(** *** [server.ts]: the handlers without request validation *)

Module Plain.

(** POST /proxy/test-cases/:testCaseId/runs/stream *)
Definition runsStream (w : World) (testCaseId : jsstring) (body : JSON)
    : list Effect :=
  forward w (runsStreamUrl w testCaseId) (browserBody (prop "browser" body)).

(** POST /proxy/test-runs/execute/stream *)
Definition executeStream (w : World) (body : JSON) : list Effect :=
  forward w (executeStreamUrl w) (executeBody body).

End Plain.

(** *** The revision of [server.ts] with the request schemas

    The server source that follows the client in [src/checkmate-client.ts]:
    the same handlers, preceded by the checks of the path parameter and of
    the body. *)

Module Validated.

Definition runsStream (w : World) (testCaseId : jsstring) (body : JSON)
    : list Effect :=
  match parseInt testCaseId with
  | Some id =>
      if id <=? 0 then
        [StatusJson 400
           {| e_error := "Invalid testCaseId: must be a positive integer";
              e_details := None |}]
      else
        match safeParse testCaseRunSchema body with
        | inl found =>
            [StatusJson 400 {| e_error := "Invalid request body";
                               e_details := Some found |}]
        | inr data =>
            forward w (runsStreamUrl w (numberText w id))
              (browserBody (prop "browser" data))
        end
  | None =>
      [StatusJson 400
         {| e_error := "Invalid testCaseId: must be a positive integer";
            e_details := None |}]
  end.

Definition executeStream (w : World) (body : JSON) : list Effect :=
  match safeParse executeStepsSchema body with
  | inl found =>
      [StatusJson 400 {| e_error := "Invalid request body";
                         e_details := Some found |}]
  | inr data => forward w (executeStreamUrl w) (executeBody data)
  end.

End Validated.

(** *** Reading a trace *)

Definition is_json (e : Effect) : bool :=
  match e with StatusJson _ _ => true | _ => false end.

Definition jsonResponses (fx : list Effect) : nat := length (List.filter is_json fx).

(** A JSON response attempted after stream bytes were written. *)
Fixpoint jsonAfterWrite (fx : list Effect) : bool :=
  match fx with
  | [] => false
  | Write _ :: rest => (0 <? jsonResponses rest)%nat || jsonAfterWrite rest
  | _ :: rest => jsonAfterWrite rest
  end.

End Relay.

(** ** Concrete inputs: a platform, streams, events, requests, backends *)

Module Concrete.

(** The platform of the runs: the UTF-8 decoder and [JSON.parse].  The
    events are the parsed values. *)
Definition utf8 : Platform :=
  {| dstate := Utf8.state; dinit := Utf8.init; dbyte := Utf8.step;
     Event := Json.value; JSON_parse := Json.parse |}.

Definition bytes (s : string) : list byte := String.list_byte_of_string s.

Definition LF : list byte := [x0a].
Definition QUOTE : list byte := [x22].

(** The stream of the protocol description: one [data: ] line, whole and
    cut inside its payload. *)
Definition oneLine : list byte :=
  bytes "data: {" ++ QUOTE ++ bytes "a" ++ QUOTE ++ bytes ":1}" ++ LF.
Definition oneLineCut : list (list byte) :=
  [bytes "data: {" ++ QUOTE ++ bytes "a" ++ QUOTE ++ bytes ":1";
   bytes "}" ++ LF].
Definition oneLinePayload : jsstring :=
  Eval cbv in map Byte.to_N
    (bytes "{" ++ QUOTE ++ bytes "a" ++ QUOTE ++ bytes ":1}").
Definition oneLineEvent : Json.value :=
  Json.VObj [(lit "a", Json.VNum (lit "1"))].

(** The payload of an event that carries the number [n], as bytes, as text
    and parsed. *)
Definition numbered (n : string) : list byte :=
  bytes "{" ++ QUOTE ++ bytes "n" ++ QUOTE ++ bytes ":" ++ bytes n ++ bytes "}".
Definition numberedText (n : string) : jsstring :=
  map Byte.to_N (numbered n).
Definition numberedEvent (n : string) : Json.value :=
  Json.VObj [(lit "n", Json.VNum (lit n))].

(** Three lines, the second malformed, cut in the middle of the second. *)
Definition threeLines : list (list byte) :=
  [bytes "data: " ++ numbered "1" ++ LF ++ bytes "data: oo";
   bytes "ps" ++ LF ++ bytes "data: " ++ numbered "3" ++ LF].

(** Two lines in two chunks. *)
Definition twoChunks : list (list byte) :=
  [bytes "data: " ++ numbered "1" ++ LF; bytes "data: " ++ numbered "2" ++ LF].

(** A page with both elements and nothing shown yet. *)
Definition blank : Runner.UI :=
  {| Runner.steps := ∅; Runner.stepsEl := Some [];
     Runner.summaryEl := Some None; Runner.errorText := None |}.

Definition event (type : string) (step_number : option Z)
    (action status : option string) (duration : option Z) : Runner.SSEEvent :=
  {| Runner.type := type; Runner.run_id := None; Runner.total_steps := None;
     Runner.step_number := step_number; Runner.action := action;
     Runner.target := None; Runner.value := None; Runner.status := status;
     Runner.duration := duration; Runner.error := None;
     Runner.screenshot := None; Runner.retried := None;
     Runner.summary := None |}.

(** A run of one step that passes, and a run whose stream stops after its
    first step has started. *)
Definition passedRun : list Runner.SSEEvent :=
  [event "run_started" None None None None;
   event "step_started" (Some 1%Z) (Some "navigate") None None;
   event "step_completed" (Some 1%Z) (Some "navigate") (Some "passed")
     (Some 250%Z);
   event "run_completed" None None (Some "passed") None].
Definition droppedRun : list Runner.SSEEvent :=
  [event "run_started" None None None None;
   event "step_started" (Some 1%Z) (Some "click") None None].

(** A backend at [answer]'s service: every request gets the same outcome.
    The runs below use small identifiers, for which [inexactText] is not
    consulted. *)
Definition backend (answer : Relay.FetchOutcome) : Relay.World :=
  {| Relay.CHECKMATE_URL := "http://127.0.0.1:8000";
     Relay.fetch := λ _ _, answer;
     Relay.inexactText := λ n, lit (pretty n) |}.

(** A 200 response that delivers one chunk and then fails. *)
Definition breaking : Relay.FetchOutcome :=
  Relay.Resolves
    {| Relay.r_status := 200; Relay.statusText := "OK";
       Relay.r_body :=
         Some {| Relay.chunks := [bytes "data: {}" ++ LF];
                 Relay.ending := Relay.Breaks (Relay.ErrorObject "terminated") |} |}.

(** A 200 response with an empty stream. *)
Definition empty200 : Relay.FetchOutcome :=
  Relay.Resolves
    {| Relay.r_status := 200; Relay.statusText := "OK";
       Relay.r_body := Some {| Relay.chunks := []; Relay.ending := Relay.Closes |} |}.


Definition goodBody : Relay.JSON :=
  Relay.JObj [("project_id", Relay.JNum (Relay.Finite (1 # 1)));
              ("steps", Relay.JArr [Relay.JStr "open the page"])].


End Concrete.

(** ** Further readings of the same code

    What the results on the rest of the decoder, of the fold and of the
    relay are stated with, and the parts of [checkmate-client.ts] and
    [server.ts] around them. *)

(** *** Lines of a stream *)

Module Lines.

(** The carriage return that precedes the separator in a CRLF stream. *)
Definition CR : N := 13.

(** [line.slice(6).trim()] *)
Definition payload (line : jsstring) : jsstring := trim (slice 6 line).

(** A line that passes both tests of the loop body: it starts with the
    prefix and something is left of its payload once trimmed. *)
Definition carries_payload (line : jsstring) : bool :=
  startsWith line DATA_PREFIX && truthy (payload line).

End Lines.

(** *** Any sequence of calls on the generator *)

Module Calls.
Section Calls.
Context `{Platform}.

(** What a consumer can do with the generator object. *)
Inductive Call := CallNext | CallReturn.

Definition call (g : Sse.Gen) (c : Call) : Sse.Gen :=
  match c with
  | CallNext => (Sse.next g).2
  | CallReturn => Sse.return_ g
  end.

Definition calls (cs : list Call) (g : Sse.Gen) : Sse.Gen := foldl call g cs.

(** Where a generator on a stream of [n] chunks can stand between two
    calls: just created, suspended with the lock, or closed with the lock
    given back if it was taken. *)
Definition between (n : nat) (g : Sse.Gen) : Prop :=
  (∃ body, g = Sse.create body
           ∧ match body with
             | Some s => length (Sse.body_chunks s) = n
             | None => True
             end)
  ∨ Sse.holds_lock n g
  ∨ (Sse.phase g = Sse.Closed
     ∧ Sse.count Sse.Cancel (Sse.effects g) = 0%nat
     ∧ (Sse.count Sse.GetReader (Sse.effects g) ≤ 1)%nat
     ∧ Sse.count Sse.ReleaseLock (Sse.effects g)
       = Sse.count Sse.GetReader (Sse.effects g)).






End Calls.
End Calls.

(** *** The step map of the UI *)

Module Steps.
Import Runner.
Local Open Scope Z_scope.

(** Every step is stored under its own number, and no step has number 0. *)
Definition keyed (m : gmap Z StepState) : Prop :=
  ∀ n s, m !! n = Some s → number s = n ∧ n ≠ 0.

Definition before (a b : StepState) : Prop := number a < number b.

(** The list on the page, when there is one, shows the steps of the map in
    ascending order, each once. *)
Definition in_sync (ui : UI) : Prop :=
  match stepsEl ui with
  | Some shown => StronglySorted before shown ∧ shown ≡ₚ values (steps ui)
  | None => True
  end.

(** A step that makes the run fail in [showSummary]. *)
Definition failing (s : StepState) : Prop :=
  s_status s = "failed" ∨ s_status s = "skipped".

(** The event is one of those that can touch step [n]. *)
Definition names (n : Z) (e : SSEEvent) : Prop := step_number e = Some n.

(** No text field of the step holds the empty string. *)
Definition filled (s : StepState) : Prop :=
  s_action s ≠ "" ∧ s_status s ≠ "" ∧ s_target s ≠ Some "" ∧ s_value s ≠ Some "".

End Steps.

(** *** What [renderStep] computes from a step ([test-runner.ts]) *)

Module Render.
Import Runner.

(** [step.status || "running"] *)
Definition statusClass (step : StepState) : string :=
  or_string (Some (s_status step)) "running".

(** [step.target || step.value || ""] *)
Definition targetDisplay (step : StepState) : string :=
  or_string (s_target step) (or_string (s_value step) "").

Definition DATA_SCHEME : jsstring := Eval cbv in lit "data:".
Definition PNG_PREFIX : jsstring := Eval cbv in lit "data:image/png;base64,".

(** The [src] of the screenshot image:
    [screenshot.startsWith("data:") ? screenshot
     : `data:image/png;base64,${screenshot}`] *)
Definition screenshotSrc (screenshot : jsstring) : jsstring :=
  if startsWith screenshot DATA_SCHEME then screenshot
  else PNG_PREFIX ++ screenshot.

End Render.

(** *** Reading a relay trace *)

Module Traces.
Import Relay.

(** The bytes an effect puts on the downstream response. *)
Definition written (e : Effect) : option (list byte) :=
  match e with Write value => Some value | _ => None end.



(** The request bodies sent upstream. *)
Definition sent (fx : list Effect) : list JSON :=
  omap (λ e, match e with Fetch _ body => Some body | _ => None end) fx.

Definition isDigit (c : N) : bool :=
  match digit c with Some _ => true | None => false end.

End Traces.

(** *** The client object and its URLs ([checkmate-client.ts]) *)

Module Client.

Definition SLASH : N := 47.

(** [baseUrl.replace(/\/$/, "")]: the pattern has no flag, so it matches
    one slash at the end of the string, if there is one. *)
Definition stripTrailingSlash (baseUrl : jsstring) : jsstring :=
  match last baseUrl with
  | Some c => if c =? SLASH then removelast baseUrl else baseUrl
  | None => baseUrl
  end.

Record CheckmateClient := { baseUrl : jsstring }.

(** [new CheckmateClient(baseUrl)] *)
Definition new (url : jsstring) : CheckmateClient :=
  {| baseUrl := stripTrailingSlash url |}.

(** The URL of [executeTestCase]; [testCaseId] is the text the template
    literal gives for the number. *)
Definition executeTestCaseUrl (c : CheckmateClient) (testCaseId : jsstring)
    : jsstring :=
  baseUrl c ++ lit "/api/test-cases/" ++ testCaseId ++ lit "/runs/stream".

(** The URL of [executeSteps]. *)
Definition executeStepsUrl (c : CheckmateClient) : jsstring :=
  baseUrl c ++ lit "/api/test-runs/execute/stream".

End Client.

(** *** The tool [list_projects] ([server.ts]) *)

Module Tools.
Local Open Scope Z_scope.

(** The fields of [Project] and [TestCaseParsed] the handler reads. *)
Record Project := { id : Z; name : string; base_url : string }.
Record TestCaseParsed := { tc_status : string }.

(** [{ ...project, test_case_count, active_count }] *)
Record Enriched := {
  project : Project;
  test_case_count : nat;
  active_count : nat;
}.

(** [error instanceof Error ? error.message : "Unknown error"] *)
Definition message_of (err : Relay.Thrown) : string :=
  match err with
  | Relay.ErrorObject m => m
  | Relay.OtherValue => "Unknown error"
  end.

(** The callback of [projects.map]: [listTestCases] is the client's method,
    with [inl] for a promise that rejects. *)
Definition enrich (listTestCases : Z → Relay.Thrown + list TestCaseParsed)
    (p : Project) : Enriched :=
  match listTestCases (id p) with
  | inr testCases =>
      {| project := p;
         test_case_count := length testCases;
         active_count :=
           length (List.filter (λ tc, bool_decide (tc_status tc = "active"))
                     testCases) |}
  | inl _ => {| project := p; test_case_count := 0; active_count := 0 |}
  end.

Definition newline : string := String (Ascii.ascii_of_nat 10) EmptyString.

Definition summary_line (p : Enriched) : string :=
  "- " +:+ name (project p) +:+ " (" +:+ pretty (test_case_count p)
    +:+ " tests) - " +:+ base_url (project p).

Definition textSummary (enriched : list Enriched) : string :=
  match enriched with
  | [] => "No projects found."
  | _ => String.concat newline (map summary_line enriched)
  end.

(** What the tool returns: the text content and the structured content. *)
Record ToolResult := {
  text : string;
  r_error : option string;
  projects : list Enriched;
}.

(** The handler.  [listProjects] is the outcome of the client's method, and
    [listTestCases i] answers the call made for the project at index [i] of
    the list; [Promise.all] keeps the order of the projects. *)
Definition list_projects (listProjects : Relay.Thrown + list Project)
    (listTestCases : nat → Z → Relay.Thrown + list TestCaseParsed)
    : ToolResult :=
  match listProjects with
  | inr found =>
      let enriched := imap (λ i, enrich (listTestCases i)) found in
      {| text := "Projects:" +:+ newline +:+ textSummary enriched;
         r_error := None; projects := enriched |}
  | inl err =>
      {| text := "Error listing projects: " +:+ message_of err;
         r_error := Some (message_of err); projects := [] |}
  end.

End Tools.

(** *** More concrete inputs *)

Module Samples.

Definition CRb : list byte := [x0d].

(** Two events, with LF and with CR LF line ends. *)
Definition twoLines : list jsstring :=
  [lit "data: " ++ Concrete.numberedText "1";
   lit "data: " ++ Concrete.numberedText "2"].
Definition lfStream : list (list byte) :=
  [Concrete.bytes "data: " ++ Concrete.numbered "1" ++ Concrete.LF
   ++ Concrete.bytes "data: " ++ Concrete.numbered "2" ++ Concrete.LF].
Definition crlfStream : list (list byte) :=
  [Concrete.bytes "data: " ++ Concrete.numbered "1" ++ CRb ++ Concrete.LF
   ++ Concrete.bytes "data: " ++ Concrete.numbered "2" ++ CRb ++ Concrete.LF].



(** A step as [step_started] leaves it. *)
Definition running (n : Z) (action : string) : Runner.StepState :=
  {| Runner.number := n; Runner.s_action := action; Runner.s_target := None;
     Runner.s_value := None; Runner.s_status := "running";
     Runner.s_duration := 0; Runner.s_error := None;
     Runner.s_screenshot := None; Runner.s_retried := None |}.

(** A step with an empty target. *)
Definition emptyTarget : Runner.SSEEvent :=
  {| Runner.type := "step_started"; Runner.run_id := None;
     Runner.total_steps := None; Runner.step_number := Some 1%Z;
     Runner.action := Some ""; Runner.target := Some "";
     Runner.value := Some "https://example.com"; Runner.status := None;
     Runner.duration := None; Runner.error := None;
     Runner.screenshot := None; Runner.retried := None;
     Runner.summary := None |}.

(** A page that shows one running step. *)
Definition oneStep : Runner.UI :=
  {| Runner.steps := {[ 1%Z := running 1 "open" ]};
     Runner.stepsEl := Some [running 1 "open"];
     Runner.summaryEl := Some None; Runner.errorText := None |}.

(** A run of two steps, the second failing. *)
Definition failingRun : list Runner.SSEEvent :=
  [Concrete.event "run_started" None None None None;
   Concrete.event "step_started" (Some 1%Z) (Some "open") None None;
   Concrete.event "step_completed" (Some 1%Z) None (Some "passed") (Some 20%Z);
   Concrete.event "step_started" (Some 2%Z) (Some "click") None None;
   Concrete.event "step_completed" (Some 2%Z) None (Some "failed") (Some 30%Z);
   Concrete.event "run_completed" None None (Some "failed") None].

(** A 200 response whose body delivers two chunks and closes. *)
Definition twoChunkBody : Relay.Body :=
  {| Relay.chunks := Concrete.twoChunks; Relay.ending := Relay.Closes |}.
Definition streaming : Relay.FetchOutcome :=
  Relay.Resolves {| Relay.r_status := 200; Relay.statusText := "OK";
                    Relay.r_body := Some twoChunkBody |}.

(** A body with a project identifier beyond the range of doubles, as
    [express.json()] delivers the literal [1e999]. *)
Definition infiniteBody : Relay.JSON :=
  Relay.JObj [("project_id", Relay.JNum Relay.PosInfinity);
              ("steps", Relay.JArr [Relay.JStr "open the page"])].

(** A valid body with a property the relay does not know. *)
Definition extraKeyBody : Relay.JSON :=
  Relay.JObj [("admin", Relay.JBool true);
              ("steps", Relay.JArr [Relay.JStr "open the page"]);
              ("project_id", Relay.JNum (Relay.Finite (1 # 1)))].

Definition firefoxBody : Relay.JSON :=
  Relay.JObj [("browser", Relay.JStr "firefox"); ("extra", Relay.JNull)].

Definition shop : Tools.Project :=
  {| Tools.id := 1; Tools.name := "shop";
     Tools.base_url := "http://shop.test" |}.
Definition blog : Tools.Project :=
  {| Tools.id := 2; Tools.name := "blog";
     Tools.base_url := "http://blog.test" |}.

(** The test cases of project 1 are listed, those of any other project
    fail to load. *)
Definition onlyShop (call : nat) (projectId : Z)
    : Relay.Thrown + list Tools.TestCaseParsed :=
  if decide (projectId = 1%Z) then
    inr [{| Tools.tc_status := "active" |}; {| Tools.tc_status := "draft" |}]
  else inl (Relay.ErrorObject "Failed to list test cases: Not Found").

End Samples.

(** * Results *)

(** ** Splitting a text into lines *)

Module SplitFacts.
Local Open Scope N_scope.

Lemma split_not_nil sep s : split sep s ≠ [].
Proof.
  destruct s as [|c s]; simpl; [done|].
  destruct (c =? sep); [done|]. by destruct (split sep s).
Qed.

Lemma split_cons_sep s : split NL (NL :: s) = [] :: split NL s.
Proof. done. Qed.

Lemma split_cons_other c s :
  c ≠ NL →
  split NL (c :: s) =
    (c :: default [] (head (split NL s))) :: tail (split NL s).
Proof.
  intros Hc. simpl. destruct (N.eqb_spec c NL) as [->|_]; [done|].
  pose proof (split_not_nil NL s). by destruct (split NL s).
Qed.

Lemma pop_split s : pop (split NL s) = (lines_of s, Some (fragment_of s)).
Proof.
  unfold pop, lines_of, fragment_of. f_equal.
  pose proof (split_not_nil NL s) as Hne.
  destruct (split NL s) as [|l ls] using rev_ind; [done|].
  by rewrite last_snoc.
Qed.

Lemma split_snoc s : split NL s = lines_of s ++ [fragment_of s].
Proof.
  unfold lines_of, fragment_of.
  pose proof (split_not_nil NL s) as Hne.
  destruct (split NL s) as [|l ls _] using rev_ind; [done|].
  by rewrite last_snoc, removelast_last.
Qed.

Lemma lines_fragment_unique s ls l :
  split NL s = ls ++ [l] → lines_of s = ls ∧ fragment_of s = l.
Proof.
  intros E. unfold lines_of, fragment_of. rewrite E.
  by rewrite last_snoc, removelast_last.
Qed.

Lemma split_app a b :
  split NL (a ++ b) = lines_of a ++ split NL (fragment_of a ++ b).
Proof.
  induction a as [|c a IH].
  - done.
  - destruct (decide (c = NL)) as [->|Hc].
    + rewrite <- app_comm_cons, !split_cons_sep, IH.
      destruct (lines_fragment_unique (NL :: a) ([] :: lines_of a) (fragment_of a))
        as [-> ->]; [|done].
      rewrite split_cons_sep. by rewrite (split_snoc a) at 1.
    + rewrite <- app_comm_cons, split_cons_other, IH by done.
      pose proof (split_snoc a) as Ea.
      pose proof (split_cons_other c a Hc) as Eca.
      destruct (lines_of a) as [|l ls] eqn:El.
      * simpl in Ea. rewrite Ea in Eca. simpl in Eca.
        destruct (lines_fragment_unique (c :: a) [] (c :: fragment_of a))
          as [-> ->]; [done|].
        rewrite !app_nil_l, <- app_comm_cons. by rewrite split_cons_other.
      * simpl in Ea. rewrite Ea in Eca. simpl in Eca.
        destruct (lines_fragment_unique (c :: a) ((c :: l) :: ls) (fragment_of a))
          as [-> ->]; [done|].
        done.
Qed.

Lemma split_no_sep s : NL ∉ s → split NL s = [s].
Proof.
  induction s as [|c s IH]; [done|]. intros Hn.
  apply not_elem_of_cons in Hn as [Hc Hs].
  rewrite split_cons_other by done. by rewrite IH.
Qed.

Lemma fragment_no_sep s : NL ∉ fragment_of s.
Proof.
  induction s as [|c s IH].
  - unfold fragment_of. simpl. apply not_elem_of_nil.
  - destruct (decide (c = NL)) as [->|Hc].
    + destruct (lines_fragment_unique (NL :: s) ([] :: lines_of s) (fragment_of s))
        as [_ ->]; [|done].
      rewrite split_cons_sep. by rewrite (split_snoc s) at 1.
    + pose proof (split_snoc s) as Ea.
      pose proof (split_cons_other c s Hc) as Eca.
      destruct (lines_of s) as [|l ls] eqn:El.
      * simpl in Ea. rewrite Ea in Eca. simpl in Eca.
        destruct (lines_fragment_unique (c :: s) [] (c :: fragment_of s))
          as [_ ->]; [done|].
        by apply not_elem_of_cons.
      * simpl in Ea. rewrite Ea in Eca. simpl in Eca.
        destruct (lines_fragment_unique (c :: s) ((c :: l) :: ls) (fragment_of s))
          as [_ ->]; done.
Qed.

Lemma lines_of_app a b :
  lines_of (a ++ b) = lines_of a ++ lines_of (fragment_of a ++ b).
Proof.
  apply (lines_fragment_unique _ _ (fragment_of (fragment_of a ++ b))).
  rewrite split_app, (split_snoc (fragment_of a ++ b)) at 1.
  by rewrite app_assoc.
Qed.

Lemma fragment_of_app a b :
  fragment_of (a ++ b) = fragment_of (fragment_of a ++ b).
Proof.
  apply (lines_fragment_unique _ (lines_of a ++ lines_of (fragment_of a ++ b))).
  rewrite split_app, (split_snoc (fragment_of a ++ b)) at 1.
  by rewrite app_assoc.
Qed.

Lemma split_line l : NL ∉ l → split NL (l ++ [NL]) = [l; []].
Proof.
  induction l as [|c l IH]; [done|]. intros Hn.
  apply not_elem_of_cons in Hn as [Hc Hl].
  rewrite <- app_comm_cons, split_cons_other by done. by rewrite IH.
Qed.

Lemma unlines_cons terminated l l' ls :
  unlines terminated (l :: l' :: ls)
  = (l ++ [NL]) ++ unlines terminated (l' :: ls).
Proof. cbn [unlines]. by rewrite <- app_assoc. Qed.

(** A text made of lines splits into those lines, followed by an empty
    fragment when the last line is terminated. *)
Lemma split_unlines terminated (ls : list jsstring) :
  Forall (λ l, NL ∉ l) ls → ls ≠ [] →
  split NL (unlines terminated ls) = if terminated then ls ++ [[]] else ls.
Proof.
  induction 1 as [|l ls Hl Hls IH]; [done|]. intros _.
  destruct ls as [|l' ls].
  - cbn [unlines]. destruct terminated; [by apply split_line|].
    by apply split_no_sep.
  - rewrite unlines_cons, split_app.
    destruct (lines_fragment_unique (l ++ [NL]) [l] []) as [-> ->];
      [by apply split_line|].
    rewrite app_nil_l, IH by done. by destruct terminated.
Qed.

End SplitFacts.

Module SseFacts.
Import SplitFacts Sse.
Local Open Scope N_scope.
Section Decoder.
Context `{Platform}.

Lemma decode_app d a b :
  TextDecoder.decode d (a ++ b) =
    let '(d1, t1) := TextDecoder.decode d a in
    let '(d2, t2) := TextDecoder.decode d1 b in (d2, t1 ++ t2).
Proof.
  revert d. induction a as [|x a IH]; intros d; simpl.
  - by destruct (TextDecoder.decode d b).
  - destruct (dbyte d x) as [d1 t1]. rewrite IH.
    destruct (TextDecoder.decode d1 a) as [d2 t2].
    destruct (TextDecoder.decode d2 b) as [d3 t3].
    by rewrite app_assoc.
Qed.

Lemma read_loop_text d buffer chunks :
  NL ∉ buffer →
  read_loop d buffer chunks =
    outs_of_text (buffer ++ (TextDecoder.decode d (concat chunks)).2).
Proof.
  revert d buffer. induction chunks as [|value chunks IH]; intros d buffer Hb.
  - simpl. rewrite app_nil_r. unfold outs_of_text.
    destruct (lines_fragment_unique buffer [] buffer) as [-> ->];
      [by apply split_no_sep|done].
  - cbn [read_loop concat]. rewrite decode_app.
    destruct (TextDecoder.decode d value) as [d1 t1].
    rewrite pop_split. cbn [default].
    rewrite IH by apply fragment_no_sep.
    destruct (TextDecoder.decode d1 (concat chunks)) as [d2 t2]. simpl.
    unfold outs_of_text.
    rewrite (app_assoc buffer t1 t2), (lines_of_app (buffer ++ t1) t2),
      (fragment_of_app (buffer ++ t1) t2), flat_map_app.
    by rewrite <- app_assoc.
Qed.

Lemma parseSSEStream_outs_text chunks :
  parseSSEStream_outs chunks = outs_of_text (text_of (concat chunks)).
Proof.
  unfold parseSSEStream_outs. rewrite read_loop_text by apply not_elem_of_nil.
  done.
Qed.

Lemma on_line_empty final : on_line final [] = [].
Proof. done. Qed.

Lemma on_line_data final payload :
  on_line final (DATA_PREFIX ++ payload) = on_data final (trim payload).
Proof. reflexivity. Qed.

Lemma yields_app a b : yields (a ++ b) = yields a ++ yields b.
Proof. apply omap_app. Qed.

Lemma consoleErrors_app a b :
  consoleErrors (a ++ b) = consoleErrors a ++ consoleErrors b.
Proof. apply omap_app. Qed.

Lemma flat_map_cons {A B} (f : A → list B) x l :
  flat_map f (x :: l) = f x ++ flat_map f l.
Proof. done. Qed.

Lemma on_data_some final data e :
  data ≠ [] → JSON_parse data = Some e → on_data final data = [Yield e].
Proof. intros Hd Hp. unfold on_data. rewrite Hp. by destruct data. Qed.

Lemma on_data_none final data :
  data ≠ [] → JSON_parse data = None →
  on_data final data = [ConsoleError final data].
Proof. intros Hd Hp. unfold on_data. rewrite Hp. by destruct data. Qed.

Lemma yields_error final data outs :
  yields (ConsoleError final data :: outs) = yields outs.
Proof. done. Qed.

Lemma consoleErrors_error final data outs :
  consoleErrors (ConsoleError final data :: outs) = data :: consoleErrors outs.
Proof. done. Qed.

Lemma yields_Yield evs : yields (map Yield evs) = evs.
Proof. induction evs as [|e evs IH]; [done|]. simpl. by rewrite IH. Qed.

Lemma consoleErrors_Yield evs : consoleErrors (map Yield evs) = [].
Proof. induction evs as [|e evs IH]; [done|]. by simpl. Qed.

(** Lines that all carry a payload that parses yield their events in
    order. *)
Lemma well_formed_lines payloads evs :
  Forall2 (λ p e, trim p ≠ [] ∧ JSON_parse (trim p) = Some e) payloads evs →
  flat_map (on_line false) (map (app DATA_PREFIX) payloads) = map Yield evs.
Proof.
  induction 1 as [|p e ps es [Hp He] _ IH]; [done|].
  rewrite !map_cons, flat_map_cons, on_line_data.
  rewrite (on_data_some _ _ e) by done. cbn [app]. f_equal. exact IH.
Qed.

Lemma NL_not_in_prefix : NL ∉ DATA_PREFIX.
Proof. apply (bool_decide_unpack _). by vm_compute. Qed.

(** The report made after the read loop differs from the others by its
    label only. *)
Lemma yields_on_line final line :
  yields (on_line final line) = yields (on_line false line).
Proof.
  unfold on_line, on_data. destruct (startsWith _ _); [|done].
  destruct (truthy _); [|done]. by destruct (JSON_parse _).
Qed.

Lemma consoleErrors_on_line final line :
  consoleErrors (on_line final line) = consoleErrors (on_line false line).
Proof.
  unfold on_line, on_data. destruct (startsWith _ _); [|done].
  destruct (truthy _); [|done]. by destruct (JSON_parse _).
Qed.

Lemma yields_outs_of_text t :
  yields (outs_of_text t) = yields (flat_map (on_line false) (split NL t)).
Proof.
  unfold outs_of_text. rewrite (split_snoc t).
  rewrite flat_map_app, !yields_app, yields_on_line.
  cbn [flat_map]. by rewrite app_nil_r.
Qed.

Lemma consoleErrors_outs_of_text t :
  consoleErrors (outs_of_text t)
  = consoleErrors (flat_map (on_line false) (split NL t)).
Proof.
  unfold outs_of_text. rewrite (split_snoc t).
  rewrite flat_map_app, !consoleErrors_app, consoleErrors_on_line.
  cbn [flat_map]. by rewrite app_nil_r.
Qed.

(** The lines of a stream of [data: ] lines, for the decoder. *)
Lemma split_data_lines terminated payloads :
  Forall (λ p, NL ∉ p) payloads → payloads ≠ [] →
  flat_map (on_line false) (split NL (data_lines terminated payloads))
  = flat_map (on_line false) (map (app DATA_PREFIX) payloads).
Proof.
  intros Hnl Hne. unfold data_lines. rewrite split_unlines.
  - destruct terminated; [|done].
    rewrite flat_map_app. cbn [flat_map]. by rewrite on_line_empty, !app_nil_r.
  - apply Forall_map. eapply Forall_impl; [exact Hnl|].
    intros p Hp. cbn beta. intros [Hd|Hd]%elem_of_app; [|done].
    by apply NL_not_in_prefix.
  - by destruct payloads.
Qed.

End Decoder.

Section Generator.
Context `{Platform}.

(** Read the fields of a generator built by [next] or [return_]. *)
Ltac fields :=
  cbn [Sse.phase Sse.pending Sse.failure Sse.dec Sse.buffer Sse.effects].

Lemma count_app x a b : count x (a ++ b) = (count x a + count x b)%nat.
Proof. unfold count. by rewrite filter_app, length_app. Qed.

Lemma count_nil x : count x [] = 0%nat.
Proof. done. Qed.

Lemma count_cons x y a :
  count x (y :: a) = ((if decide (x = y) then 1 else 0) + count x a)%nat.
Proof. unfold count. rewrite filter_cons. by destruct (decide (x = y)). Qed.

(** Count the calls in a trace built with [++] and [::]. *)
Ltac counts := rewrite ?count_app, ?count_cons, ?count_nil.

Lemma on_line_cases final line :
  on_line final line = []
  ∨ (∃ e, on_line final line = [Yield e])
  ∨ (∃ d, on_line final line = [ConsoleError final d]).
Proof.
  unfold on_line, on_data. destruct (startsWith _ _); [|by left].
  destruct (truthy _); [|by left].
  destruct (JSON_parse _); [right; left|right; right]; eauto.
Qed.

Lemma for_lines_spec lines :
  match for_lines lines with
  | (fx, Some (e, rest)) =>
      yields (flat_map (on_line false) lines)
      = e :: yields (flat_map (on_line false) rest)
  | (fx, None) => yields (flat_map (on_line false) lines) = []
  end
  ∧ passive (for_lines lines).1 ∧ count Read (for_lines lines).1 = 0%nat.
Proof.
  induction lines as [|line lines IH]; [done|].
  cbn [for_lines]. rewrite flat_map_cons, yields_app.
  destruct (on_line_cases false line) as [E|[[e E]|[d E]]]; rewrite E.
  - exact IH.
  - done.
  - destruct (for_lines lines) as [fx [[e rest]|]]; simpl in *;
      destruct IH as (? & (? & ? & ?) & ?); repeat split;
      rewrite ?count_cons; simpl; done.
Qed.

Lemma loop_outs_nil failure d buffer :
  loop_outs failure d buffer []
  = match failure with None => on_line true buffer | Some _ => [] end.
Proof. by destruct failure. Qed.

Lemma loop_outs_cons failure d buffer value chunks :
  loop_outs failure d buffer (value :: chunks)
  = flat_map (on_line false)
      (pop (split NL (buffer ++ (TextDecoder.decode d value).2))).1
    ++ loop_outs failure (TextDecoder.decode d value).1
         (default [] (pop (split NL (buffer ++ (TextDecoder.decode d value).2))).2)
         chunks.
Proof.
  destruct failure; cbn [loop_outs read_loop read_until_failure];
    destruct (TextDecoder.decode d value) as [d1 text];
    by destruct (pop _).
Qed.

Lemma while_read_spec failure d buffer chunks :
  match while_read failure d buffer chunks with
  | (fx, StopLine e rest d' buffer' chunks') =>
      yields (loop_outs failure d buffer chunks)
      = e :: yields (flat_map (on_line false) rest
                     ++ loop_outs failure d' buffer' chunks')
      ∧ (count Read fx + length chunks')%nat = length chunks
  | (fx, StopFinal e _ _) =>
      failure = None
      ∧ yields (loop_outs failure d buffer chunks) = [e]
      ∧ count Read fx = S (length chunks)
  | (fx, StopEnd _ _) =>
      failure = None
      ∧ yields (loop_outs failure d buffer chunks) = []
      ∧ count Read fx = S (length chunks)
  | (fx, StopThrow message _ _) =>
      failure = Some message
      ∧ yields (loop_outs failure d buffer chunks) = []
      ∧ count Read fx = S (length chunks)
  end
  ∧ passive (while_read failure d buffer chunks).1.
Proof.
  revert d buffer. induction chunks as [|value chunks IH]; intros d buffer.
  - rewrite loop_outs_nil. cbn [while_read]. destruct failure as [m|]; [done|].
    destruct (on_line_cases true buffer) as [E|[[e E]|[x E]]]; rewrite E; done.
  - rewrite loop_outs_cons. cbn [while_read].
    destruct (TextDecoder.decode d value) as [d1 text]. cbn [fst snd].
    destruct (pop _) as [lines fragment]. cbn [fst snd].
    rewrite yields_app.
    pose proof (for_lines_spec lines) as (Hl & (Hg & Hr & Hc) & Hn).
    destruct (for_lines lines) as [fx [[e rest]|]]; cbn [fst] in *.
    + rewrite Hl, yields_app. unfold passive. rewrite !count_cons.
      cbn [length]. repeat split; simpl; lia.
    + rewrite Hl. specialize (IH d1 (default [] fragment)).
      destruct (while_read failure d1 (default [] fragment) chunks)
        as [fx' stop].
      cbn [fst] in *. destruct IH as (IH & Hg' & Hr' & Hc').
      unfold passive. rewrite !count_cons, !count_app. cbn [length].
      destruct stop; (split; [|simpl; lia]).
      * destruct IH as [-> IH]. split; [done|simpl; lia].
      * destruct IH as (? & -> & IH). repeat split; [done|simpl; lia].
      * destruct IH as (? & -> & IH). repeat split; [done|simpl; lia].
      * destruct IH as (? & -> & IH). repeat split; [done|simpl; lia].
Qed.

Lemma resume_reads_spec n g fx d buffer chunks :
  count GetReader (effects g ++ fx) = 1%nat →
  count ReleaseLock (effects g ++ fx) = 0%nat →
  count Cancel (effects g ++ fx) = 0%nat →
  (count Read (effects g ++ fx) + length chunks)%nat = n →
  match resume_reads g fx d buffer chunks with
  | (Value e, g') =>
      yields (loop_outs (failure g) d buffer chunks) = e :: remaining g'
      ∧ holds_lock n g' ∧ failure g' = failure g
  | (Done, g') =>
      failure g = None
      ∧ yields (loop_outs (failure g) d buffer chunks) = []
      ∧ released_once g'
      ∧ count Read (effects g') = S n ∧ pending g' = []
  | (Thrown message, g') =>
      failure g = Some message
      ∧ yields (loop_outs (failure g) d buffer chunks) = []
      ∧ released_once g'
      ∧ count Read (effects g') = S n ∧ pending g' = []
  end.
Proof.
  intros Hg Hr Hc Hn. unfold resume_reads.
  pose proof (while_read_spec (failure g) d buffer chunks)
    as [Hw (Pg & Pr & Pc)].
  destruct (while_read (failure g) d buffer chunks) as [fx' stop].
  cbn [fst] in *.
  rewrite !count_app in Hg, Hr, Hc, Hn.
  destruct stop; [destruct Hw as [Hy Hreads]|destruct Hw as (Hfl & Hy & Hreads)..];
    unfold holds_lock, released_once, remaining; fields; counts; simpl;
    repeat split; try done; lia.
Qed.

Lemma next_spec n g :
  holds_lock n g →
  match next g with
  | (Value e, g') =>
      remaining g = e :: remaining g' ∧ holds_lock n g'
      ∧ failure g' = failure g
  | (Done, g') =>
      failure g = None
      ∧ remaining g = [] ∧ released_once g'
      ∧ count Read (effects g') = S n ∧ pending g' = []
  | (Thrown message, g') =>
      failure g = Some message
      ∧ remaining g = [] ∧ released_once g'
      ∧ count Read (effects g') = S n ∧ pending g' = []
  end.
Proof.
  intros (Hg & Hr & Hc & Hp). unfold next, remaining.
  destruct (phase g) as [body|lines| |] eqn:Eph; try done.
  - rewrite yields_app.
    pose proof (for_lines_spec lines) as (Hl & (Pg & Pr & Pc) & Pn).
    destruct (for_lines lines) as [fx [[e rest]|]]; cbn [fst] in *.
    + rewrite Hl. unfold holds_lock. fields.
      rewrite !count_app, yields_app. repeat split; try done; lia.
    + rewrite Hl. cbn [app].
      apply resume_reads_spec; rewrite !count_app; lia.
  - destruct Hp as (Hp & Hq & Hfl). unfold released_once. fields. counts.
    repeat split; try done; simpl; lia.
Qed.

Lemma next_create s :
  match next (create (Some s)) with
  | (Value e, g') =>
      stream_events s = e :: remaining g'
      ∧ holds_lock (length (body_chunks s)) g'
      ∧ failure g' = body_failure s
  | (Done, g') =>
      body_failure s = None
      ∧ stream_events s = [] ∧ released_once g'
      ∧ count Read (effects g') = S (length (body_chunks s)) ∧ pending g' = []
  | (Thrown message, g') =>
      body_failure s = Some message
      ∧ stream_events s = [] ∧ released_once g'
      ∧ count Read (effects g') = S (length (body_chunks s)) ∧ pending g' = []
  end.
Proof.
  unfold next, stream_events. cbn [phase create dec buffer fmap option_fmap option_map].
  apply (resume_reads_spec (length (body_chunks s)) (create (Some s))); done.
Qed.

Lemma return_spec n g :
  holds_lock n g →
  released_once (return_ g)
  ∧ pending (return_ g) = pending g
  ∧ count Read (effects (return_ g)) = count Read (effects g).
Proof.
  intros (Hg & Hr & Hc & Hp). unfold return_, released_once.
  destruct (phase g); try done; fields; counts; repeat split; try done;
    simpl; lia.
Qed.

(** A loop resumed on a suspended generator: its events are those yielded
    before, a prefix of those still to come. *)
Lemma for_await_held n stop fuel g acc :
  holds_lock n g →
  (length (remaining g) < fuel)%nat →
  ∃ events g' how,
    for_await fuel stop g acc = Some (events, g', how)
    ∧ ended n (failure g) stop (remaining g) acc events g' how.
Proof.
  revert g acc. induction fuel as [|fuel IH]; intros g acc Hg Hf; [lia|].
  cbn [for_await]. pose proof (next_spec n g Hg) as Hn.
  destruct (next g) as [[e| |m] g'].
  - destruct Hn as (Hrem & Hg' & Hfl). rewrite Hrem in Hf |- *.
    cbn [length] in Hf.
    destruct (stop (acc ++ [e])) eqn:Es.
    + eexists _, _, _. split; [done|].
      destruct (return_spec n g' Hg') as (Hrel & Hpend & Hreads).
      split; [done|]. split; [|split; [done|]].
      * exists [e]. split; [|done]. by apply prefix_cons, prefix_nil.
      * rewrite Hreads, Hpend. destruct Hg' as (_ & _ & _ & Hp).
        destruct (phase g'); try done; [by left|right; tauto].
    + destruct (IH g' (acc ++ [e]) Hg') as (events & g'' & how & Ef & He);
        [lia|].
      exists events, g'', how. split; [done|].
      destruct He as [Hrel He]. split; [done|]. rewrite Hfl in He.
      destruct how.
      * destruct He as (? & -> & ? & ?). by rewrite <- app_assoc.
      * destruct He as ((got & Hpre & ->) & ? & ?). split; [|done].
        exists (e :: got). split; [by apply prefix_cons|].
        by rewrite <- app_assoc.
      * destruct He as (? & -> & ? & ?). by rewrite <- app_assoc.
  - destruct Hn as (Hfl & Hrem & Hrel & Hreads & Hpend).
    eexists _, _, _. split; [done|]. split; [done|].
    rewrite Hrem, app_nil_r. done.
  - destruct Hn as (Hfl & Hrem & Hrel & Hreads & Hpend).
    eexists _, _, _. split; [done|]. split; [done|].
    rewrite Hrem, app_nil_r. done.
Qed.

Lemma for_await_create stop fuel s :
  (length (stream_events s) < fuel)%nat →
  ∃ events g how,
    for_await fuel stop (create (Some s)) [] = Some (events, g, how)
    ∧ ended (length (body_chunks s)) (body_failure s) stop (stream_events s)
        [] events g how.
Proof.
  destruct fuel as [|fuel]; [lia|]. intros Hf.
  cbn [for_await]. pose proof (next_create s) as Hn.
  destruct (next (create (Some s))) as [[e| |m] g'].
  - destruct Hn as (Hrem & Hg' & Hfl). rewrite Hrem in Hf |- *.
    cbn [length] in Hf.
    destruct (stop ([] ++ [e])) eqn:Es.
    + eexists _, _, _. split; [done|].
      destruct (return_spec _ g' Hg') as (Hrel & Hpend & Hreads).
      split; [done|]. split; [|split; [done|]].
      * exists [e]. split; [|done]. by apply prefix_cons, prefix_nil.
      * rewrite Hreads, Hpend. destruct Hg' as (_ & _ & _ & Hp).
        destruct (phase g'); try done; [by left|right; tauto].
    + destruct (for_await_held (length (body_chunks s)) stop fuel g'
                  ([] ++ [e]) Hg')
        as (events & g'' & how & Ef & He); [lia|].
      exists events, g'', how. split; [done|].
      destruct He as [Hrel He]. split; [done|]. rewrite Hfl in He.
      destruct how.
      * destruct He as (? & -> & ? & ?). done.
      * destruct He as ((got & Hpre & ->) & ? & ?). split; [|done].
        exists (e :: got). split; [by apply prefix_cons|done].
      * destruct He as (? & -> & ? & ?). done.
  - destruct Hn as (Hfl & Hrem & Hrel & Hreads & Hpend).
    eexists _, _, _. split; [done|]. split; [done|].
    rewrite Hrem. done.
  - destruct Hn as (Hfl & Hrem & Hrel & Hreads & Hpend).
    eexists _, _, _. split; [done|]. split; [done|].
    rewrite Hrem. done.
Qed.

End Generator.

(** C1.  However the bytes of a stream are cut into chunks, the decoder
    yields the same events: two chunk sequences with the same concatenation
    decode alike.  In particular, when the stream is one [data: ] line, with
    or without its final separator, the line is decoded to its one event
    wherever the chunk boundaries fall, inside the line or inside its
    payload. *)
Theorem parseSSEStream_chunking `{Platform} (cs1 cs2 : list (list byte)) :
  concat cs1 = concat cs2 →
  parseSSEStream cs1 = parseSSEStream cs2
  ∧ ∀ terminated payload e,
      text_of (concat cs2) = data_lines terminated [payload] →
      NL ∉ payload → trim payload ≠ [] → JSON_parse (trim payload) = Some e →
      parseSSEStream cs1 = [e].
Proof.
  intros Hcs. unfold parseSSEStream.
  rewrite !parseSSEStream_outs_text, Hcs. split; [done|].
  intros terminated payload e Ht Hnl Hne Hp.
  rewrite yields_outs_of_text, Ht, split_data_lines by (by repeat constructor).
  cbn [map]. rewrite flat_map_cons, on_line_data.
  rewrite (on_data_some _ _ e) by done. done.
Qed.

Lemma parseSSEStream_chunking_witness :
  concat Concrete.oneLineCut = concat [Concrete.oneLine]
  ∧ @parseSSEStream Concrete.utf8 Concrete.oneLineCut
    = @parseSSEStream Concrete.utf8 [Concrete.oneLine]
  ∧ @parseSSEStream Concrete.utf8 Concrete.oneLineCut
    = [Concrete.oneLineEvent].
Proof.
  assert (concat Concrete.oneLineCut = concat [Concrete.oneLine]) as Hc
    by reflexivity.
  split; [exact Hc|].
  destruct (parseSSEStream_chunking (H:=Concrete.utf8) Concrete.oneLineCut
              [Concrete.oneLine] Hc) as [Heq Hline].
  split; [exact Heq|].
  apply (Hline true Concrete.oneLinePayload Concrete.oneLineEvent).
  - by vm_compute.
  - apply (bool_decide_unpack _). by vm_compute.
  - by vm_compute.
  - by vm_compute.
Defined.

(** C6.  In a stream of N [data: ] lines, the last one with or without its
    final separator, of which one carries a (non-empty) payload that
    [JSON.parse] rejects and the others parse, the decoder yields the N-1
    events of the other lines, in order, those after the malformed line
    included; the malformed payload is reported on the console and nothing
    else is. *)
Theorem malformed_payload_skipped `{Platform} (chunks : list (list byte))
    (terminated : bool) (pre post : list jsstring) (bad : jsstring)
    (evs1 evs2 : list Event) :
  text_of (concat chunks) = data_lines terminated (pre ++ bad :: post) →
  Forall (λ p, NL ∉ p) (pre ++ bad :: post) →
  Forall2 (λ p e, trim p ≠ [] ∧ JSON_parse (trim p) = Some e) pre evs1 →
  Forall2 (λ p e, trim p ≠ [] ∧ JSON_parse (trim p) = Some e) post evs2 →
  trim bad ≠ [] → JSON_parse (trim bad) = None →
  parseSSEStream chunks = evs1 ++ evs2
  ∧ length (parseSSEStream chunks) = (length (pre ++ bad :: post) - 1)%nat
  ∧ consoleErrors (parseSSEStream_outs chunks) = [trim bad].
Proof.
  intros Ht Hnl H1 H2 Hne Hbad.
  assert (flat_map (on_line false)
            (split NL (data_lines terminated (pre ++ bad :: post)))
          = map Yield evs1 ++ ConsoleError false (trim bad) :: map Yield evs2)
    as Elines.
  { rewrite split_data_lines by (done || by destruct pre).
    rewrite map_app, flat_map_app, map_cons, flat_map_cons.
    rewrite (well_formed_lines _ _ H1), (well_formed_lines _ _ H2).
    rewrite on_line_data, on_data_none by done. done. }
  unfold parseSSEStream. rewrite parseSSEStream_outs_text, Ht.
  rewrite yields_outs_of_text, consoleErrors_outs_of_text, Elines.
  rewrite yields_app, consoleErrors_app, yields_error, consoleErrors_error.
  rewrite !yields_Yield, !consoleErrors_Yield. split; [done|]. split; [|done].
  rewrite !length_app. cbn [length].
  rewrite (Forall2_length _ _ _ H1), (Forall2_length _ _ _ H2). lia.
Qed.

Lemma malformed_payload_skipped_witness :
  @text_of Concrete.utf8 (concat Concrete.threeLines)
  = data_lines true ([Concrete.numberedText "1"] ++ lit "oops"
                     :: [Concrete.numberedText "3"])
  ∧ @parseSSEStream Concrete.utf8 Concrete.threeLines
    = [Concrete.numberedEvent "1"; Concrete.numberedEvent "3"]
  ∧ @consoleErrors Concrete.utf8 (parseSSEStream_outs Concrete.threeLines)
    = [lit "oops"].
Proof.
  assert (@text_of Concrete.utf8 (concat Concrete.threeLines)
          = data_lines true ([Concrete.numberedText "1"] ++ lit "oops"
                             :: [Concrete.numberedText "3"]))
    as Ht by (by vm_compute).
  split; [exact Ht|].
  destruct (malformed_payload_skipped (H:=Concrete.utf8) Concrete.threeLines
              true [Concrete.numberedText "1"] [Concrete.numberedText "3"]
              (lit "oops")
              [Concrete.numberedEvent "1"] [Concrete.numberedEvent "3"] Ht)
    as (Hev & _ & Hlog).
  - repeat constructor; apply (bool_decide_unpack _); by vm_compute.
  - repeat constructor; by vm_compute.
  - repeat constructor; by vm_compute.
  - by vm_compute.
  - by vm_compute.
  - split; [exact Hev|exact Hlog].
Defined.

(** C5 (as the code has it).  Over a response with a body, once the loop has
    asked for a first event, and whether it then runs the stream to its
    end, breaks out early, or meets a read that fails, the generator takes
    the reader once and releases its lock exactly once; it never cancels
    the reader.  A loop that runs to the end of a body that ends well
    receives every event of the stream; when a read fails it has received
    the events of the lines read until then.  A loop that breaks out is
    left with the events yielded so far, and the chunks not yet read stay
    unread: they are neither cancelled nor drained. *)
Theorem parseSSEStream_releases_once `{Platform} (s : Stream)
    (stop : list Event → bool) (fuel : nat) :
  (length (stream_events s) < fuel)%nat →
  ∃ events g how,
    for_await fuel stop (create (Some s)) [] = Some (events, g, how)
    ∧ phase g = Closed
    ∧ count GetReader (effects g) = 1%nat
    ∧ count ReleaseLock (effects g) = 1%nat
    ∧ count Cancel (effects g) = 0%nat
    ∧ match how with
      | Exhausted =>
          body_failure s = None
          ∧ events = parseSSEStream (body_chunks s)
          ∧ count Read (effects g) = S (length (body_chunks s))
          ∧ pending g = []
      | Abandoned =>
          events `prefix_of` stream_events s
          ∧ stop events = true
          ∧ ((count Read (effects g) + length (pending g))%nat
             = length (body_chunks s)
             ∨ (count Read (effects g) = S (length (body_chunks s))
                ∧ pending g = []))
      | Failed message =>
          body_failure s = Some message
          ∧ events = stream_events s
          ∧ count Read (effects g) = S (length (body_chunks s))
          ∧ pending g = []
      end.
Proof.
  intros Hf.
  destruct (for_await_create stop fuel s Hf)
    as (events & g & how & Efor & (Hph & Hg & Hr & Hc) & Hend).
  exists events, g, how. repeat (split; [done|]).
  destruct how; [|by destruct Hend as ((got & Hpre & ->) & Hs & Hreads)|done].
  destruct Hend as (Hfl & -> & Hreads & Hpend). repeat split; try done.
  unfold stream_events. by rewrite Hfl.
Qed.

Lemma parseSSEStream_releases_once_witness :
  (length (@stream_events Concrete.utf8 (closing Concrete.twoChunks)) < 3)%nat
  ∧ ∃ events g how,
      @for_await Concrete.utf8 3 (λ _, true)
        (create (Some (closing Concrete.twoChunks))) []
      = Some (events, g, how)
      ∧ count ReleaseLock (effects g) = 1%nat
      ∧ count Cancel (effects g) = 0%nat.
Proof.
  assert (length (@stream_events Concrete.utf8 (closing Concrete.twoChunks))
          < 3)%nat
    as Hf by (vm_compute; lia).
  split; [exact Hf|].
  destruct (parseSSEStream_releases_once (H:=Concrete.utf8)
              (closing Concrete.twoChunks) (λ _, true) 3 Hf)
    as (events & g & how & Efor & _ & _ & Hr & Hc & _).
  exists events, g, how. repeat split; assumption.
Defined.

(** C5, the claim as stated fails: a loop that breaks out after the first
    event of a two-chunk stream leaves the generator having read one chunk
    and released the lock, without any cancellation; the second chunk is
    still with the transport. *)
Lemma abandoned_stream_not_cancelled :
  (λ '(events, g, how), (events, how, effects g, pending g))
    <$> @for_await Concrete.utf8 3 (λ _, true)
          (create (Some (closing Concrete.twoChunks))) []
  = Some ([Concrete.numberedEvent "1"], Abandoned,
          [GetReader; Read; ReleaseLock],
          [Concrete.bytes "data: " ++ Concrete.numbered "2" ++ Concrete.LF]).
Proof. vm_compute. reflexivity. Qed.

End SseFacts.

(** ** The step state fold *)

Module RunnerFacts.
Import Runner.
Local Open Scope Z_scope.

Lemma steps_updateStepsList ui : steps (updateStepsList ui) = steps ui.
Proof. unfold updateStepsList. by destruct (stepsEl ui). Qed.

Lemma steps_showSummary ui : steps (showSummary ui) = steps ui.
Proof. unfold showSummary. by destruct (summaryEl ui). Qed.

Lemma summaryEl_updateStepsList ui :
  summaryEl (updateStepsList ui) = summaryEl ui.
Proof. unfold updateStepsList. by destruct (stepsEl ui). Qed.

Lemma truthy_number_Some x n : truthy_number x = Some n → x = Some n ∧ n ≠ 0.
Proof.
  unfold truthy_number. destruct x as [m|]; [|done].
  destruct (decide (m = 0)); naive_solver.
Qed.

Lemma truthy_number_nonzero n : n ≠ 0 → truthy_number (Some n) = Some n.
Proof. intros Hn. unfold truthy_number. by destruct (decide (n = 0)). Qed.

(** An event other than a [step_started] for [n] does not create a
    StepState for [n]. *)
Lemma processEvent_absent e ui n :
  steps ui !! n = None →
  (type e = "step_started" → step_number e ≠ Some n) →
  steps (processEvent e ui) !! n = None.
Proof.
  intros Hn He. unfold processEvent.
  destruct (decide (type e = "run_started")); [done|].
  destruct (decide (type e = "step_started")) as [Hs|_].
  - destruct (truthy_number (step_number e)) as [m|] eqn:Em; [|done].
    apply truthy_number_Some in Em as [Em _].
    rewrite steps_updateStepsList. cbn [steps with_steps].
    rewrite lookup_insert_ne; [done|]. intros ->. by apply He.
  - destruct (decide (type e = "step_completed")) as [_|_].
    + destruct (truthy_number (step_number e)) as [m|]; [|done].
      destruct (steps ui !! m) as [step|] eqn:Es; [|done].
      rewrite steps_updateStepsList. cbn [steps with_steps].
      rewrite lookup_insert_ne; [done|]. intros ->. congruence.
    + destruct (decide (type e = "run_completed")); [|done].
      by rewrite steps_showSummary.
Qed.

Lemma forEach_cons e events ui :
  forEach (e :: events) ui = forEach events (processEvent e ui).
Proof. done. Qed.

Lemma processEvent_summary e ui :
  type e ≠ "run_completed" → summaryEl (processEvent e ui) = summaryEl ui.
Proof.
  intros He. unfold processEvent.
  destruct (decide (type e = "run_started")); [done|].
  destruct (decide (type e = "step_started")).
  { destruct (truthy_number _); [|done]. by rewrite summaryEl_updateStepsList. }
  destruct (decide (type e = "step_completed")).
  { destruct (truthy_number _) as [m|]; [|done].
    destruct (steps ui !! m); [|done]. by rewrite summaryEl_updateStepsList. }
  by destruct (decide (type e = "run_completed")).
Qed.

Lemma completedEvent_none events :
  Forall (λ e, type e ≠ "run_completed") events → completedEvent events = None.
Proof.
  induction 1 as [|e events He _ IH]; [done|].
  unfold completedEvent in *. cbn [find]. by rewrite bool_decide_false.
Qed.

(** C2 (as the code has it).  A [step_completed] for a step number that has
    no StepState is ignored: the state is left as it was and no StepState is
    created.  Over a whole event sequence: if step N is never started, and
    had no StepState at the start, it has none after the fold, whatever
    [step_completed] events for N the sequence contains. *)
Theorem step_completed_without_start_ignored (events : list SSEEvent)
    (ui : UI) (n : Z) :
  steps ui !! n = None →
  Forall (λ e, type e = "step_started" → step_number e ≠ Some n) events →
  steps (forEach events ui) !! n = None
  ∧ ∀ e, type e = "step_completed" → step_number e = Some n →
         processEvent e ui = ui.
Proof.
  intros Hn Hev. split.
  - revert ui Hn. induction Hev as [|e events He _ IH]; intros ui Hn; [done|].
    rewrite forEach_cons. apply IH. by apply processEvent_absent.
  - intros e Ht Hs. unfold processEvent. rewrite Ht, Hs.
    destruct (decide (_ = "run_started")); [done|].
    destruct (decide (_ = "step_started")); [done|].
    destruct (decide (_ = "step_completed")); [|done].
    destruct (truthy_number (Some n)) as [m|] eqn:Em; [|done].
    apply truthy_number_Some in Em as [[= <-] _]. by rewrite Hn.
Qed.

Lemma step_completed_without_start_ignored_witness :
  steps (forEach [Concrete.event "step_completed" (Some 2) (Some "click")
                    (Some "failed") (Some 10)] Concrete.blank) !! 2 = None.
Proof.
  apply (step_completed_without_start_ignored
           [Concrete.event "step_completed" (Some 2) (Some "click")
              (Some "failed") (Some 10)] Concrete.blank 2).
  - by vm_compute.
  - repeat constructor. by vm_compute.
Defined.

(** C2, the claim as stated fails: folded from a blank page, a
    [step_completed] for step 1 that no [step_started] preceded leaves no
    StepState for step 1. *)
Lemma step_completed_alone_creates_nothing :
  steps (forEach [Concrete.event "run_started" None None None None;
                  Concrete.event "step_completed" (Some 1) (Some "click")
                    (Some "passed") (Some 250)]
           Concrete.blank) !! 1 = None.
Proof. by vm_compute. Qed.

(** C7 (as the code has it).  A [step_started] for a non-zero step number N
    stores a fresh StepState for N: action, target and value from the event,
    status ["running"], duration 0, no error, screenshot or retried flag,
    whether or not a StepState for N existed; the other steps are left
    alone. *)
Theorem step_started_resets_step (e : SSEEvent) (ui : UI) (n : Z) :
  type e = "step_started" → step_number e = Some n → n ≠ 0 →
  steps (processEvent e ui) !! n
  = Some {| number := n;
            s_action := or_string (action e) "unknown";
            s_target := or_null (target e);
            s_value := or_null (value e);
            s_status := "running"; s_duration := 0;
            s_error := None; s_screenshot := None; s_retried := None |}
  ∧ ∀ m, m ≠ n → steps (processEvent e ui) !! m = steps ui !! m.
Proof.
  intros Ht Hs Hn. unfold processEvent. rewrite Ht, Hs.
  destruct (decide (_ = "run_started")); [done|].
  destruct (decide (_ = "step_started")); [|done].
  rewrite truthy_number_nonzero, steps_updateStepsList by done.
  cbn [steps with_steps]. split.
  - by rewrite lookup_insert_eq.
  - intros m Hm. by rewrite lookup_insert_ne.
Qed.

Lemma step_started_resets_step_witness :
  s_status <$> steps (processEvent
                        (Concrete.event "step_started" (Some 3) None None None)
                        Concrete.blank) !! 3 = Some "running".
Proof.
  rewrite (proj1 (step_started_resets_step
                    (Concrete.event "step_started" (Some 3) None None None)
                    Concrete.blank 3 eq_refl eq_refl ltac:(lia))).
  reflexivity.
Defined.

(** C7, the claim as stated fails: a second [step_started] for a step that
    has already passed puts it back to ["running"] and clears its
    duration. *)
Lemma step_started_again_loses_status :
  let events :=
    [Concrete.event "step_started" (Some 1) (Some "click") None None;
     Concrete.event "step_completed" (Some 1) (Some "click") (Some "passed")
       (Some 250)] in
  let again := Concrete.event "step_started" (Some 1) (Some "click") None None in
  s_status <$> steps (forEach events Concrete.blank) !! 1 = Some "passed"
  ∧ s_status <$> steps (forEach (events ++ [again]) Concrete.blank) !! 1
    = Some "running"
  ∧ s_duration <$> steps (forEach (events ++ [again]) Concrete.blank) !! 1
    = Some 0.
Proof. by vm_compute. Qed.

(** X25.  For an event sequence with no [run_completed] event, the status
    the tool handlers report is ["unknown"], hence not ["passed"], and the
    summary is the placeholder; in the test runner UI the fold computes no
    verdict and leaves the summary box as it was, whatever it showed. *)
Theorem run_without_completion_not_passed (events : list SSEEvent) :
  Forall (λ e, type e ≠ "run_completed") events →
  run_status events = Some "unknown"
  ∧ run_status events ≠ Some "passed"
  ∧ run_summary events = Some "Test completed"
  ∧ ∀ ui, summaryEl (forEach events ui) = summaryEl ui.
Proof.
  intros Hev. unfold run_status, run_summary.
  rewrite completedEvent_none by done. repeat split; [done|].
  induction Hev as [|e events He _ IH]; intros ui; [done|].
  by rewrite forEach_cons, IH, processEvent_summary.
Qed.

Lemma run_without_completion_not_passed_witness :
  run_status [Concrete.event "run_started" None None None None;
              Concrete.event "step_started" (Some 1) (Some "click") None None]
  = Some "unknown".
Proof.
  apply (run_without_completion_not_passed
           [Concrete.event "run_started" None None None None;
            Concrete.event "step_started" (Some 1) (Some "click") None None]).
  repeat constructor; by vm_compute.
Defined.

(** C9, the code at the failing input.  A page that has shown the result of
    a run that passed receives the result of a run that has no
    [run_completed] event: its steps are cleared and replaced by the step
    of the second run, still running, and the tool handlers would report
    the second run as ["unknown"]; but the summary box is not part of what
    [processToolResult] clears, and goes on showing the verdict of the
    first run: test passed, one step passed, none failed. *)
Theorem stale_verdict_after_incomplete_run :
  let first := {| d_events := Some Concrete.passedRun; d_error := None |} in
  let second := {| d_events := Some Concrete.droppedRun; d_error := None |} in
  let page :=
    processToolResult second (processToolResult first Concrete.blank) in
  completedEvent Concrete.droppedRun = None
  ∧ run_status Concrete.droppedRun = Some "unknown"
  ∧ s_status <$> steps page !! 1 = Some "running"
  ∧ s_action <$> steps page !! 1 = Some "click"
  ∧ summaryEl page
    = Some (Some {| testFailed := false; passed := 1; failed := 0;
                    totalDuration := 250 |}).
Proof. by vm_compute. Qed.

(** C10.  A [step_started] or [step_completed] event whose [step_number] is
    absent or 0 changes nothing: the steps, and all the rest of the state,
    are as before. *)
Theorem step_zero_ignored (e : SSEEvent) (ui : UI) :
  type e = "step_started" ∨ type e = "step_completed" →
  step_number e = None ∨ step_number e = Some 0 →
  processEvent e ui = ui ∧ steps (processEvent e ui) = steps ui.
Proof.
  intros Ht Hs.
  assert (truthy_number (step_number e) = None) as Hn
    by (by destruct Hs as [->| ->]).
  assert (processEvent e ui = ui) as ->; [|done].
  unfold processEvent. rewrite Hn.
  destruct Ht as [Ht|Ht]; rewrite Ht;
    repeat (destruct (decide _); try done).
Qed.

Lemma step_zero_ignored_witness :
  processEvent (Concrete.event "step_started" (Some 0) (Some "navigate") None None)
    Concrete.blank = Concrete.blank.
Proof.
  apply (step_zero_ignored
           (Concrete.event "step_started" (Some 0) (Some "navigate") None None)
           Concrete.blank); [by left|by right].
Defined.

End RunnerFacts.

(** ** The relay *)

Module RelayFacts.
Import Relay.
Local Open Scope Z_scope.

Lemma each_nil {A} (check : nat → A → list Issue) (good : A → bool) i l :
  (∀ j x, check j x = [] ↔ good x = true) →
  each check i l = [] ↔ forallb good l = true.
Proof.
  intros Hc. revert i. induction l as [|x l IH]; intros i; [done|].
  cbn [each forallb]. rewrite andb_true_iff, <- (IH (S i)), <- (Hc i x).
  split.
  - by intros [? ?]%app_eq_nil.
  - by intros [-> ->].
Qed.

Lemma issues_positive_integer p v :
  issues (ZNumber [Int; Positive]) p v = [] ↔ isPositiveInteger v = true.
Proof.
  destruct v as [[| |n| | |]|]; try done. cbn.
  destruct (isInteger n), (isPositive n); by cbn.
Qed.

Lemma issues_string p x : issues ZString p (Some x) = [] ↔ isString x = true.
Proof. by destruct x. Qed.

Lemma issues_browser p v :
  issues browserSchema p v = [] ↔ isBrowserOrAbsent v = true.
Proof.
  destruct v as [[| | |name| |]|]; try done. cbn.
  fold browsers. by destruct (bool_decide (name ∈ browsers)).
Qed.

Lemma issues_steps p v :
  issues (ZArray ZString (Some 1%nat)) p v = [] ↔ isStepList v = true.
Proof.
  destruct v as [[| | | |items|]|]; try done. cbn [issues isStepList].
  rewrite andb_true_iff,
    <- (each_nil (λ i x, issues ZString (p ++ [Index i]) (Some x)) isString 0)
    by (intros; apply issues_string).
  destruct items as [|x items]; cbn [length Nat.ltb Nat.leb].
  - split; [done|]. by intros [? _].
  - rewrite app_nil_l. by split; [|intros [_ ?]].
Qed.

Lemma issues_ids p v :
  issues (ZOptional (ZArray (ZNumber [Int; Positive]) None)) p v = []
  ↔ isIdListOrAbsent v = true.
Proof.
  destruct v as [[| | | |items|]|]; try done. cbn [issues isIdListOrAbsent].
  rewrite app_nil_l. apply each_nil. intros j x.
  exact (issues_positive_integer (p ++ [Index j]) (Some x)).
Qed.

Lemma app_nil_iff {A} (a b : list A) : a ++ b = [] ↔ a = [] ∧ b = [].
Proof. split; [apply app_eq_nil|by intros [-> ->]]. Qed.

Lemma issues_object shape p fields :
  issues (ZObject shape) p (Some (JObj fields))
  = flat_map (λ '(k, sk), issues sk (p ++ [Key k]) (assoc k fields)) shape.
Proof. done. Qed.

(** The schemas of the source accept exactly the bodies the description
    asks for. *)
Lemma executeStepsSchema_ok body :
  issues executeStepsSchema [] (Some body) = [] ↔ executeBodyOk body = true.
Proof.
  unfold executeBodyOk. destruct body as [| | | | |fields]; try done.
  unfold executeStepsSchema. rewrite issues_object.
  cbn [flat_map isObject prop andb]. rewrite !app_nil_iff, !andb_true_iff.
  rewrite issues_positive_integer, issues_steps, issues_browser, issues_ids.
  tauto.
Qed.

Lemma testCaseRunSchema_ok body :
  issues testCaseRunSchema [] (Some body) = [] ↔ runBodyOk body = true.
Proof.
  unfold runBodyOk. destruct body as [| | | | |fields]; try done.
  unfold testCaseRunSchema. rewrite issues_object.
  cbn [flat_map isObject prop andb]. rewrite !app_nil_iff, issues_browser.
  tauto.
Qed.


Lemma safeParse_accepts s body good :
  (issues s [] (Some body) = [] ↔ good = true) →
  good = true →
  safeParse s body = inr (pick (keys s) body).
Proof. intros Hs Hg. unfold safeParse. by rewrite (proj2 Hs Hg). Qed.

(** Induction along [pump]: the stream is over, or one more chunk is read
    and written. *)
Ltac pump_induction chunks ending :=
  let IH := fresh "IH" in
  induction chunks as [|? chunks IH];
  [ try destruct ending; try done
  | cbn [pump]; destruct (pump chunks ending); exact IH ].







Lemma pump_no_json chunks ending :
  jsonResponses (pump chunks ending).1 = 0%nat.
Proof. pump_induction chunks ending. Qed.

Lemma pump_closes chunks : (pump chunks Closes).2 = None.
Proof.
  induction chunks as [|c chunks IH]; [done|]. cbn [pump].
  by destruct (pump chunks Closes).
Qed.

Lemma jsonResponses_app a b :
  jsonResponses (a ++ b) = (jsonResponses a + jsonResponses b)%nat.
Proof. unfold jsonResponses. by rewrite List.filter_app, length_app. Qed.

Lemma no_json_no_json_after_write fx :
  jsonResponses fx = 0%nat → jsonAfterWrite fx = false.
Proof.
  induction fx as [|e fx IH]; [done|]. intros Hj.
  assert (jsonResponses fx = 0%nat) as Hj' by (by destruct e).
  destruct e; cbn [jsonAfterWrite]; try by apply IH.
  rewrite Hj'. by apply IH.
Qed.

(** Where the two response modes do exclude each other: as long as the
    upstream body ends by closing, no JSON response follows a write. *)
Lemma forward_exclusive_when_stream_closes w url body :
  (∀ r b, fetch w url body = Resolves r → r_body r = Some b →
          ending b = Closes) →
  jsonAfterWrite (forward w url body) = false.
Proof.
  intros Hc. unfold forward. destruct (fetch w url body) as [err|r]; [done|].
  destruct (negb (ok r)); [done|].
  destruct (r_body r) as [b|] eqn:Eb; [|done].
  specialize (Hc r b eq_refl Eb).
  pose proof (pump_closes (chunks b)) as Ht.
  pose proof (pump_no_json (chunks b) Closes) as Hj.
  rewrite Hc. destruct (pump _ _) as [fx t]. cbn [fst snd] in *. subst t.
  rewrite app_nil_r. cbn. by apply no_json_no_json_after_write.
Qed.

Lemma json_after_write_intro a v b status payload c :
  jsonAfterWrite (a ++ Write v :: b ++ StatusJson status payload :: c) = true.
Proof.
  assert (jsonAfterWrite (Write v :: b ++ StatusJson status payload :: c) = true)
    as Hw.
  { cbn [jsonAfterWrite]. rewrite jsonResponses_app. cbn.
    by rewrite Nat.add_succ_r. }
  induction a as [|e a IH]; [exact Hw|].
  destruct e; cbn [app jsonAfterWrite]; try exact IH.
  rewrite IH. apply orb_true_r.
Qed.

Lemma pump_breaks chunks err : (pump chunks (Breaks err)).2 = Some err.
Proof.
  induction chunks as [|c chunks IH]; [done|]. cbn [pump].
  by destruct (pump chunks (Breaks err)).
Qed.

(** And where they do not: when a read fails after a first chunk was
    forwarded, a JSON response is attempted after the write. *)
Lemma forward_json_after_write_when_stream_breaks w url body r c chunks err :
  fetch w url body = Resolves r → ok r = true →
  r_body r = Some {| Relay.chunks := c :: chunks; ending := Breaks err |} →
  jsonAfterWrite (forward w url body) = true.
Proof.
  intros Hf Hok Hb. unfold forward. rewrite Hf, Hok, Hb.
  cbn [negb Relay.chunks ending pump].
  pose proof (pump_breaks chunks err) as Ht.
  destruct (pump chunks (Breaks err)) as [fx t]. cbn [snd] in Ht. subst t.
  apply (json_after_write_intro (Fetch url body :: sseHeaders ++ [Read])).
Qed.






(** C3, the code at the failing input: the backend answers 200, delivers one
    chunk, and then a read fails.  Each handler has by then flushed the SSE
    headers and written the chunk, and its [catch] block goes on to attempt
    a JSON response with status 500. *)
Theorem relay_json_attempt_after_stream_bytes :
  let w := Concrete.backend Concrete.breaking in
  let body := Concrete.goodBody in
  Plain.runsStream w (lit "5") (JObj [])
  = Fetch (lit "http://127.0.0.1:8000/api/test-cases/5/runs/stream")
      (JObj [("browser", JStr "chromium-headless")])
      :: sseHeaders
      ++ [Read; Write (Concrete.bytes "data: {}" ++ Concrete.LF); Read;
          StatusJson 500 {| e_error := "terminated"; e_details := None |}]
  ∧ jsonAfterWrite (Plain.runsStream w (lit "5") (JObj [])) = true
  ∧ jsonAfterWrite (Plain.executeStream w body) = true
  ∧ jsonAfterWrite (Validated.runsStream w (lit "5") (JObj [])) = true
  ∧ jsonAfterWrite (Validated.executeStream w body) = true.
Proof. by vm_compute. Qed.

End RelayFacts.

(** ** Lists *)

Module ListMore.

Lemma omap_cons_eq {A B} (f : A → option B) x l :
  omap f (x :: l)
  = match f x with Some y => y :: omap f l | None => omap f l end.
Proof. done. Qed.

End ListMore.

(** ** More on the decoder *)

Module SseMore.
Import SplitFacts SseFacts Sse Lines Calls ListMore.
Local Open Scope N_scope.

Section Decoder.
Context `{Platform}.

Lemma yields_on_line_payload l :
  yields (on_line false l)
  = if carries_payload l then
      match JSON_parse (payload l) with Some e => [e] | None => [] end
    else [].
Proof.
  unfold carries_payload, on_line, on_data, payload.
  destruct (startsWith l DATA_PREFIX); [|done].
  destruct (truthy (trim (slice 6 l))); [|done].
  by destruct (JSON_parse (trim (slice 6 l))).
Qed.

Lemma consoleErrors_on_line_payload l :
  consoleErrors (on_line false l)
  = if carries_payload l then
      match JSON_parse (payload l) with Some e => [] | None => [payload l] end
    else [].
Proof.
  unfold carries_payload, on_line, on_data, payload.
  destruct (startsWith l DATA_PREFIX); [|done].
  destruct (truthy (trim (slice 6 l))); [|done].
  by destruct (JSON_parse (trim (slice 6 l))).
Qed.

Lemma yields_lines ls :
  yields (flat_map (on_line false) ls)
  = omap (λ l, JSON_parse (payload l)) (List.filter carries_payload ls).
Proof.
  induction ls as [|l ls IH]; [done|].
  rewrite flat_map_cons, yields_app, IH, yields_on_line_payload.
  cbn [List.filter]. destruct (carries_payload l); [|done].
  rewrite omap_cons_eq. by destruct (JSON_parse (payload l)).
Qed.

Lemma consoleErrors_lines ls :
  consoleErrors (flat_map (on_line false) ls)
  = List.filter (λ d, bool_decide (JSON_parse d = None))
      (map payload (List.filter carries_payload ls)).
Proof.
  induction ls as [|l ls IH]; [done|].
  rewrite flat_map_cons, consoleErrors_app, IH, consoleErrors_on_line_payload.
  cbn [List.filter]. destruct (carries_payload l); [|done].
  cbn [map List.filter]. destruct (JSON_parse (payload l)) eqn:E.
  - rewrite bool_decide_false by done. done.
  - rewrite bool_decide_true by done. done.
Qed.

Lemma trimStart_app p q :
  trimStart (p ++ q)
  = match trimStart p with [] => trimStart q | _ => trimStart p ++ q end.
Proof.
  induction p as [|c p IH]; [done|].
  cbn [app trimStart]. by destruct (isWhiteSpace c).
Qed.

Lemma trim_snoc_space p c : isWhiteSpace c = true → trim (p ++ [c]) = trim p.
Proof.
  intros Hc. unfold trim, trimEnd. rewrite trimStart_app.
  cbn [trimStart]. rewrite Hc.
  destruct (trimStart p) as [|x t] eqn:E; [done|].
  rewrite rev_app_distr. cbn [rev app trimStart]. by rewrite Hc.
Qed.

Lemma startsWith_snoc l c p :
  c ∉ p → startsWith (l ++ [c]) p = startsWith l p.
Proof.
  revert l. induction p as [|a p IH]; intros l Hc; [done|].
  apply not_elem_of_cons in Hc as [Hca Hcp].
  destruct l as [|x l]; cbn [app startsWith].
  - by rewrite (proj2 (N.eqb_neq c a) Hca).
  - by rewrite IH.
Qed.

Lemma startsWith_length l p : startsWith l p = true → (length p ≤ length l)%nat.
Proof.
  revert l. induction p as [|a p IH]; intros l; cbn [length]; [lia|].
  destruct l as [|x l]; cbn [startsWith length]; [done|].
  intros [_ Hl]%andb_true_iff. apply IH in Hl. lia.
Qed.

Lemma CR_not_in_prefix : CR ∉ DATA_PREFIX.
Proof. apply (bool_decide_unpack _). by vm_compute. Qed.

(** A carriage return at the end of a line is not seen. *)
Lemma on_line_cr final l : on_line final (l ++ [CR]) = on_line final l.
Proof.
  unfold on_line. rewrite startsWith_snoc by apply CR_not_in_prefix.
  destruct (startsWith l DATA_PREFIX) eqn:Es; [|done].
  apply startsWith_length in Es. cbn [length DATA_PREFIX] in Es.
  unfold slice. rewrite drop_app_le by done.
  by rewrite trim_snoc_space.
Qed.

Lemma events_of_unlines chunks terminated ls :
  Forall (λ l, NL ∉ l) ls → ls ≠ [] →
  text_of (concat chunks) = unlines terminated ls →
  parseSSEStream chunks = yields (flat_map (on_line false) ls).
Proof.
  intros Hnl Hne Ht. unfold parseSSEStream.
  rewrite parseSSEStream_outs_text, yields_outs_of_text, Ht, split_unlines
    by done.
  destruct terminated; [|done].
  rewrite flat_map_app. cbn [flat_map].
  by rewrite on_line_empty, !app_nil_r.
Qed.

Lemma next_closed g : phase g = Closed → next g = (Done, g).
Proof. intros Hp. unfold next. by rewrite Hp. Qed.

Lemma between_call n g c : between n g → between n (call g c).
Proof.
  intros [(body & -> & Hb)|[Hheld|(Hp & Hc & Hg & Hr)]].
  - destruct c; cbn [call].
    + destruct body as [s|].
      * pose proof (next_create s) as Hn. subst n.
        destruct (next (create (Some s))) as [[e| |m] g']; cbn [snd].
        -- right; left. apply Hn.
        -- destruct Hn as (_ & _ & (Hp & Hg & Hr & Hc) & _).
           right; right. repeat split; try done; lia.
        -- destruct Hn as (_ & _ & (Hp & Hg & Hr & Hc) & _).
           right; right. repeat split; try done; lia.
      * right; right. vm_compute. repeat split; try done; lia.
    + right; right. unfold return_, create. cbn [phase effects].
      rewrite !count_nil. repeat split; try done; lia.
  - destruct c; cbn [call].
    + pose proof (next_spec n g Hheld) as Hn.
      destruct (next g) as [[e| |m] g']; cbn [snd].
      * right; left. apply Hn.
      * destruct Hn as (_ & _ & (Hp & Hg & Hr & Hc) & _).
        right; right. repeat split; try done; lia.
      * destruct Hn as (_ & _ & (Hp & Hg & Hr & Hc) & _).
        right; right. repeat split; try done; lia.
    + destruct (return_spec n g Hheld) as ((Hp & Hg & Hr & Hc) & _).
      right; right. repeat split; try done; lia.
  - right; right. destruct c; cbn [call].
    + by rewrite next_closed.
    + unfold return_. rewrite Hp. by cbn.
Qed.

Lemma between_calls n cs g : between n g → between n (calls cs g).
Proof.
  revert g. induction cs as [|c cs IH]; intros g Hg; [done|].
  apply IH. by apply between_call.
Qed.

(** The loop of the tool handlers stops at the first [null] event. *)
Section Collect.
Context (isNull : Event → bool).




End Collect.

End Decoder.

(** X1.  The events of a stream are the parses, in order, of the lines that
    start with [data: ] and have a non-blank payload; every other line, and
    every payload [JSON.parse] rejects, adds nothing.  The payloads reported
    on the console are those rejected, in order. *)
Theorem parseSSEStream_lines `{Platform} (chunks : list (list byte)) :
  parseSSEStream chunks
  = omap (λ l, JSON_parse (payload l))
      (List.filter carries_payload (split NL (text_of (concat chunks))))
  ∧ consoleErrors (parseSSEStream_outs chunks)
    = List.filter (λ d, bool_decide (JSON_parse d = None))
        (map payload
           (List.filter carries_payload (split NL (text_of (concat chunks))))).
Proof.
  unfold parseSSEStream. rewrite parseSSEStream_outs_text.
  rewrite yields_outs_of_text, consoleErrors_outs_of_text.
  by rewrite yields_lines, consoleErrors_lines.
Qed.

(** X2.  A stream whose lines end with CR LF decodes to the same events as
    the stream with LF alone. *)
Theorem crlf_same_events `{Platform} (lf crlf : list (list byte))
    (terminated : bool) (ls : list jsstring) :
  Forall (λ l, NL ∉ l) ls → ls ≠ [] →
  text_of (concat lf) = unlines terminated ls →
  text_of (concat crlf) = unlines terminated (map (λ l, l ++ [CR]) ls) →
  parseSSEStream crlf = parseSSEStream lf.
Proof.
  intros Hnl Hne Hlf Hcrlf.
  rewrite (events_of_unlines lf terminated ls) by done.
  rewrite (events_of_unlines crlf terminated (map (λ l, l ++ [CR]) ls)).
  - f_equal. clear. induction ls as [|l ls IH]; [done|].
    rewrite map_cons, !flat_map_cons, on_line_cr. by rewrite IH.
  - apply Forall_map. eapply Forall_impl; [exact Hnl|].
    intros l Hl. cbn beta. intros [?|Hc]%elem_of_app; [done|].
    by apply list_elem_of_singleton in Hc.
  - by destruct ls.
  - done.
Qed.

Lemma crlf_same_events_witness :
  @parseSSEStream Concrete.utf8 Samples.crlfStream
  = @parseSSEStream Concrete.utf8 Samples.lfStream.
Proof.
  apply (crlf_same_events (H:=Concrete.utf8) Samples.lfStream
           Samples.crlfStream true Samples.twoLines).
  - apply (bool_decide_unpack _). by vm_compute.
  - done.
  - by vm_compute.
  - by vm_compute.
Defined.

(** X3.  Whatever calls a consumer makes on the generator, [next()] and
    [return()] in any order and number, the reader is taken at most once,
    never cancelled, and released at most once and only after it was
    taken; once the generator is closed the lock is not held; for a
    response without a body the reader is not touched at all. *)
Theorem generator_lock_discipline `{Platform}
    (body : option Stream) (cs : list Call) :
  let g := calls cs (create body) in
  (count GetReader (effects g) ≤ 1)%nat
  ∧ (count ReleaseLock (effects g) ≤ count GetReader (effects g))%nat
  ∧ count Cancel (effects g) = 0%nat
  ∧ (phase g = Closed →
     count ReleaseLock (effects g) = count GetReader (effects g))
  ∧ (body = None → effects g = []).
Proof.
  intros g.
  assert (between (default 0%nat (length ∘ body_chunks <$> body)) g) as Hb.
  { apply between_calls. left. exists body. split; [done|]. by destruct body. }
  assert (body = None → effects g = []) as Hnone.
  { intros ->. subst g. clear Hb.
    assert (∀ g0, effects g0 = [] ∧ (phase g0 = Start None ∨ phase g0 = Closed) →
                  effects (calls cs g0) = []) as Hgen.
    { induction cs as [|c cs IH]; intros g0 [He Hp]; [done|].
      apply IH. destruct c; cbn [call].
      - unfold next. destruct Hp as [Hp|Hp]; rewrite Hp; cbn; by auto.
      - unfold return_. destruct Hp as [Hp|Hp]; rewrite Hp; cbn; by auto. }
    apply Hgen. split; [done|by left]. }
  destruct Hb as [(b & Hg & _)|[(Hg & Hr & Hc & Hp)|(Hp & Hc & Hg & Hr)]].
  - rewrite Hg. repeat split; try done. cbn. lia.
  - repeat split; try done; try lia. intros E. by rewrite E in Hp.
  - repeat split; try done; lia.
Qed.

Lemma generator_lock_discipline_witness :
  phase (@calls Concrete.utf8 [CallNext; CallReturn; CallNext; CallReturn]
           (create (Some (closing Concrete.twoChunks)))) = Closed
  ∧ count ReleaseLock
      (effects (@calls Concrete.utf8 [CallNext; CallReturn; CallNext; CallReturn]
                  (create (Some (closing Concrete.twoChunks))))) = 1%nat.
Proof.
  pose proof (generator_lock_discipline (H:=Concrete.utf8)
                (Some (closing Concrete.twoChunks))
                [CallNext; CallReturn; CallNext; CallReturn])
    as (_ & _ & _ & Hclosed & _).
  split; [by vm_compute|]. rewrite Hclosed; by vm_compute.
Defined.



End SseMore.

(** ** More on the step state fold *)

Module RunnerMore.
Import Runner Steps Render RunnerFacts.
Local Open Scope Z_scope.

(** The branches of [processEvent]. *)
Lemma processEvent_cases e ui :
  processEvent e ui = ui
  ∨ (∃ n, type e = "step_started" ∧ step_number e = Some n ∧ n ≠ 0
          ∧ processEvent e ui
            = updateStepsList
                (with_steps
                   (<[n := {| number := n;
                              s_action := or_string (action e) "unknown";
                              s_target := or_null (target e);
                              s_value := or_null (value e);
                              s_status := "running"; s_duration := 0;
                              s_error := None; s_screenshot := None;
                              s_retried := None |}]> (steps ui)) ui))
  ∨ (∃ n step, type e = "step_completed" ∧ step_number e = Some n ∧ n ≠ 0
          ∧ steps ui !! n = Some step
          ∧ processEvent e ui
            = updateStepsList
                (with_steps
                   (<[n := {| number := number step;
                              s_action := s_action step;
                              s_target := s_target step;
                              s_value := s_value step;
                              s_status := or_string (status e) "passed";
                              s_duration := or_zero (duration e);
                              s_error := error e;
                              s_screenshot := screenshot e;
                              s_retried := retried e |}]> (steps ui)) ui))
  ∨ (type e = "run_completed" ∧ processEvent e ui = showSummary ui).
Proof.
  unfold processEvent.
  destruct (decide (type e = "run_started")); [by left|].
  destruct (decide (type e = "step_started")) as [Hs|_].
  { destruct (truthy_number (step_number e)) as [m|] eqn:Em; [|by left].
    apply truthy_number_Some in Em as [Em Hm]. right; left. by exists m. }
  destruct (decide (type e = "step_completed")) as [Hc|_].
  { destruct (truthy_number (step_number e)) as [m|] eqn:Em; [|by left].
    apply truthy_number_Some in Em as [Em Hm].
    destruct (steps ui !! m) as [step|] eqn:Es; [|by left].
    right; right; left. by exists m, step. }
  destruct (decide (type e = "run_completed")); [|by left].
  by right; right; right.
Qed.

Lemma steps_processEvent_other e ui n :
  step_number e ≠ Some n → steps (processEvent e ui) !! n = steps ui !! n.
Proof.
  intros Hn.
  destruct (processEvent_cases e ui)
    as [->|[(m & _ & Em & _ & ->)|[(m & st & _ & Em & _ & _ & ->)|[_ ->]]]];
    rewrite ?steps_updateStepsList, ?steps_showSummary; cbn [steps with_steps];
    try done; rewrite lookup_insert_ne; congruence.
Qed.

Lemma keyed_processEvent e ui :
  keyed (steps ui) → keyed (steps (processEvent e ui)).
Proof.
  intros Hk.
  destruct (processEvent_cases e ui)
    as [->|[(m & _ & Em & Hm & ->)|[(m & st & _ & Em & Hm & Hst & ->)|[_ ->]]]];
    rewrite ?steps_updateStepsList, ?steps_showSummary; cbn [steps with_steps];
    try done.
  - intros n s [[<- <-]|[_ Hs]]%lookup_insert_Some; [done|by apply Hk].
  - intros n s [[<- <-]|[_ Hs]]%lookup_insert_Some; [|by apply Hk].
    cbn [number]. split; [by apply (Hk m st)|done].
Qed.

Lemma is_Some_processEvent e ui n :
  is_Some (steps ui !! n) → is_Some (steps (processEvent e ui) !! n).
Proof.
  intros Hn.
  destruct (processEvent_cases e ui)
    as [->|[(m & _ & Em & Hm & ->)|[(m & st & _ & Em & Hm & Hst & ->)|[_ ->]]]];
    rewrite ?steps_updateStepsList, ?steps_showSummary; cbn [steps with_steps];
    try done; rewrite lookup_insert_is_Some; destruct (decide (m = n)); auto.
Qed.

Lemma steps_processEvent_congr e ui ui' :
  steps ui = steps ui' → steps (processEvent e ui) = steps (processEvent e ui').
Proof.
  intros Hs. unfold processEvent.
  repeat (destruct (decide _); [|]); try done;
    repeat (destruct (truthy_number _); try done);
    rewrite <- ?Hs; repeat (destruct (steps ui !! _); try done);
    by rewrite ?steps_updateStepsList, ?steps_showSummary; cbn [steps with_steps];
       rewrite ?Hs.
Qed.

#[local] Instance by_number_total : Total by_number.
Proof. intros a b. unfold by_number. lia. Qed.

#[local] Instance by_number_trans : Transitive by_number.
Proof. intros a b c. unfold by_number. lia. Qed.

Lemma numbers_of_keyed m :
  keyed m → number <$> values m = (map_to_list m).*1.
Proof.
  intros Hk. unfold values. rewrite <- list_fmap_compose.
  apply Forall_fmap_ext, Forall_forall.
  intros [n s] Hin%elem_of_map_to_list. by apply Hk.
Qed.

Lemma StronglySorted_strict l :
  StronglySorted by_number l → NoDup (number <$> l) → StronglySorted before l.
Proof.
  induction 1 as [|a l Hl IH Ha]; intros Hnd; [constructor|].
  rewrite fmap_cons in Hnd. apply NoDup_cons in Hnd as [Hin Hnd].
  constructor; [by apply IH|].
  apply Forall_forall. intros b Hb.
  rewrite Forall_forall in Ha. specialize (Ha b Hb).
  unfold by_number, before in *.
  assert (number a ≠ number b); [|lia].
  intros E. apply Hin. rewrite E. by apply list_elem_of_fmap_2.
Qed.

Lemma in_sync_updateStepsList ui :
  keyed (steps ui) → in_sync (updateStepsList ui).
Proof.
  intros Hk. unfold in_sync, updateStepsList.
  destruct (stepsEl ui) as [old|] eqn:E; [|by rewrite E].
  cbn [stepsEl steps]. split; [|apply merge_sort_Permutation].
  apply StronglySorted_strict; [apply (StronglySorted_merge_sort _)|].
  rewrite merge_sort_Permutation, numbers_of_keyed by done.
  apply NoDup_fst_map_to_list.
Qed.

Lemma in_sync_processEvent e ui :
  keyed (steps ui) → in_sync ui → in_sync (processEvent e ui).
Proof.
  intros Hk Hs. pose proof (keyed_processEvent e ui Hk) as Hk'.
  destruct (processEvent_cases e ui)
    as [->|[(m & _ & _ & _ & E)|[(m & st & _ & _ & _ & _ & E)|[_ ->]]]];
    try done.
  - rewrite E in Hk' |- *. rewrite steps_updateStepsList in Hk'.
    by apply in_sync_updateStepsList.
  - rewrite E in Hk' |- *. rewrite steps_updateStepsList in Hk'.
    by apply in_sync_updateStepsList.
  - unfold in_sync, showSummary in *. by destruct (summaryEl ui).
Qed.

Lemma stepsEl_processEvent_other e ui :
  type e ≠ "step_started" → type e ≠ "step_completed" →
  steps (processEvent e ui) = steps ui ∧ stepsEl (processEvent e ui) = stepsEl ui.
Proof.
  intros Hs Hc.
  destruct (processEvent_cases e ui)
    as [->|[(m & ? & _)|[(m & st & ? & _)|[_ ->]]]]; try done.
  unfold showSummary. by destruct (summaryEl ui).
Qed.

Lemma filter_disjoint_length {A} (P Q : A → Prop)
    `{∀ x, Decision (P x)} `{∀ x, Decision (Q x)} (l : list A) :
  (∀ x, P x → Q x → False) →
  (length (filter P l) + length (filter Q l) ≤ length l)%nat.
Proof.
  intros Hd. induction l as [|x l IH]; [done|].
  rewrite !filter_cons. cbn [length].
  destruct (decide (P x)), (decide (Q x)); cbn [length]; try lia.
  by destruct (Hd x).
Qed.

Lemma elem_of_values (m : gmap Z StepState) s :
  s ∈ values m ↔ ∃ n, m !! n = Some s.
Proof.
  unfold values. rewrite list_elem_of_fmap. split.
  - intros ([n s'] & -> & Hin%elem_of_map_to_list). by exists n.
  - intros [n Hn]. exists (n, s). by rewrite elem_of_map_to_list.
Qed.

Lemma length_values (m : gmap Z StepState) : length (values m) = size m.
Proof. unfold values. by rewrite length_fmap, length_map_to_list. Qed.

(** X5.  A sequence of events none of which carries step number [n] leaves
    step [n] as it was, whatever the types of the events. *)
Theorem events_touch_only_their_step (events : list SSEEvent) (ui : UI)
    (n : Z) :
  Forall (λ e, ¬ names n e) events →
  steps (forEach events ui) !! n = steps ui !! n.
Proof.
  intros Hev. revert ui.
  induction Hev as [|e events He _ IH]; intros ui; [done|].
  by rewrite forEach_cons, IH, steps_processEvent_other.
Qed.

Lemma events_touch_only_their_step_witness :
  steps (forEach [Concrete.event "step_started" (Some 2) (Some "click") None None;
                  Concrete.event "step_completed" (Some 2) None (Some "failed") None;
                  Concrete.event "run_completed" None None None None]
           Samples.oneStep) !! 1
  = steps Samples.oneStep !! 1.
Proof.
  apply (events_touch_only_their_step
           [Concrete.event "step_started" (Some 2) (Some "click") None None;
            Concrete.event "step_completed" (Some 2) None (Some "failed") None;
            Concrete.event "run_completed" None None None None]
           Samples.oneStep 1).
  repeat constructor; by vm_compute.
Defined.

Lemma keyed_oneStep : keyed (steps Samples.oneStep).
Proof.
  intros n s Hs. unfold Samples.oneStep in Hs. cbn [steps] in Hs.
  apply lookup_singleton_Some in Hs as [<- <-]. by vm_compute.
Qed.

Lemma in_sync_oneStep : in_sync Samples.oneStep.
Proof.
  unfold in_sync, Samples.oneStep. cbn [stepsEl steps]. split.
  - repeat constructor.
  - unfold values. by rewrite map_to_list_singleton.
Qed.

(** X6.  Every step is stored under its own number and no step has number
    0: the fold keeps this, and it never removes a step. *)
Theorem steps_stay_keyed (events : list SSEEvent) (ui : UI) :
  keyed (steps ui) →
  keyed (steps (forEach events ui))
  ∧ ∀ n, is_Some (steps ui !! n) → is_Some (steps (forEach events ui) !! n).
Proof.
  revert ui. induction events as [|e events IH]; intros ui Hk; [done|].
  rewrite forEach_cons.
  destruct (IH (processEvent e ui) (keyed_processEvent e ui Hk)) as [Hk' Hd].
  split; [done|]. intros n Hn. by apply Hd, is_Some_processEvent.
Qed.

Lemma steps_stay_keyed_witness :
  is_Some (steps (forEach Samples.failingRun Samples.oneStep) !! 1)
  ∧ number <$> steps (forEach Samples.failingRun Samples.oneStep) !! 2 = Some 2.
Proof.
  destruct (steps_stay_keyed Samples.failingRun Samples.oneStep keyed_oneStep)
    as [Hk Hd].
  split; [|by vm_compute].
  apply Hd, (mk_is_Some _ (Samples.running 1 "open")). by vm_compute.
Defined.

(** X7.  The list on the page follows the map: when it shows the steps of
    the map once each in ascending order of number before a sequence of
    events, it does after it. *)
Theorem steps_list_stays_in_sync (events : list SSEEvent) (ui : UI) :
  keyed (steps ui) → in_sync ui → in_sync (forEach events ui).
Proof.
  revert ui. induction events as [|e events IH]; intros ui Hk Hs; [done|].
  rewrite forEach_cons.
  by apply IH; [apply keyed_processEvent|apply in_sync_processEvent].
Qed.

Lemma steps_list_stays_in_sync_witness :
  in_sync (forEach Samples.failingRun Samples.oneStep).
Proof.
  apply (steps_list_stays_in_sync Samples.failingRun Samples.oneStep).
  - exact keyed_oneStep.
  - exact in_sync_oneStep.
Defined.

(** X8.  The verdict of the summary comes from the steps alone: on a page
    with a summary box, a [run_completed] event shows a failed test exactly
    when some step is failed or skipped, whatever status the event itself
    carries; a step counts at most once, and the steps are left as they
    were. *)
Theorem summary_verdict_from_steps (e : SSEEvent) (ui : UI)
    (old : option Summary) :
  type e = "run_completed" → summaryEl ui = Some old →
  ∃ s, summaryEl (processEvent e ui) = Some (Some s)
       ∧ (testFailed s = true ↔ ∃ n st, steps ui !! n = Some st ∧ failing st)
       ∧ (passed s + failed s ≤ size (steps ui))%nat
       ∧ steps (processEvent e ui) = steps ui.
Proof.
  intros Ht Hs. unfold processEvent. rewrite Ht.
  destruct (decide (_ = "run_started")); [done|].
  destruct (decide (_ = "step_started")); [done|].
  destruct (decide (_ = "step_completed")); [done|].
  destruct (decide (_ = "run_completed")); [|done].
  unfold showSummary. rewrite Hs. eexists. split; [done|].
  cbn [testFailed passed failed steps]. split; [|split; [|done]].
  - rewrite bool_decide_eq_true. split.
    + intros Hpos.
      destruct (filter _ (values (steps ui))) as [|st l] eqn:E;
        [cbn in Hpos; lia|].
      assert (st ∈ filter (λ s, s_status s = "failed" ∨ s_status s = "skipped")
                (values (steps ui))) as Hin by (rewrite E; left).
      apply list_elem_of_filter in Hin as [Hf [k Hk]%elem_of_values].
      by exists k, st.
    + intros (k & st & Hk & Hf).
      assert (st ∈ filter (λ s, s_status s = "failed" ∨ s_status s = "skipped")
                (values (steps ui))) as Hin.
      { apply list_elem_of_filter. split; [done|]. apply elem_of_values.
        by exists k. }
      destruct (filter _ (values (steps ui))); [by apply elem_of_nil in Hin|].
      cbn [length]. lia.
  - rewrite <- length_values. apply filter_disjoint_length.
    intros st Hp [Hf|Hf]; congruence.
Qed.

Lemma summary_verdict_from_steps_witness :
  testFailed <$> default None
    (summaryEl (forEach Samples.failingRun Concrete.blank)) = Some true
  ∧ ∃ s, summaryEl
           (processEvent (Concrete.event "run_completed" None None (Some "failed") None)
              Samples.oneStep) = Some (Some s)
         ∧ testFailed s = false.
Proof.
  split; [by vm_compute|].
  destruct (summary_verdict_from_steps
              (Concrete.event "run_completed" None None (Some "failed") None)
              Samples.oneStep None eq_refl eq_refl)
    as (s & Hs & Hv & _).
  exists s. split; [done|].
  destruct (testFailed s); [|done]. destruct Hv as [Hv _].
  destruct (Hv eq_refl) as (n & st & Hn & Hf).
  unfold Samples.oneStep in Hn. cbn [steps] in Hn.
  apply lookup_singleton_Some in Hn as [<- <-].
  by destruct Hf as [Hf|Hf]; vm_compute in Hf.
Defined.

(** X9.  A result that carries no error starts from an empty map: the steps
    it leaves depend on its events alone, not on the steps of an earlier
    result nor on what the page shows. *)
Theorem processToolResult_starts_afresh (data : TestRunnerData)
    (ui ui' : UI) :
  or_null (d_error data) = None →
  steps (processToolResult data ui) = steps (processToolResult data ui').
Proof.
  intros He. unfold processToolResult. rewrite He.
  assert (steps (with_steps ∅ ui) = steps (with_steps ∅ ui')) as Hs by done.
  revert Hs. generalize (with_steps ∅ ui), (with_steps ∅ ui').
  induction (default [] (d_events data)) as [|e events IH]; intros u u' Hs;
    [done|].
  rewrite !forEach_cons. by apply IH, steps_processEvent_congr.
Qed.

Lemma processToolResult_starts_afresh_witness :
  steps (processToolResult
           {| d_events := Some Samples.failingRun; d_error := None |}
           Samples.oneStep)
  = steps (processToolResult
             {| d_events := Some Samples.failingRun; d_error := None |}
             Concrete.blank).
Proof.
  apply (processToolResult_starts_afresh
           {| d_events := Some Samples.failingRun; d_error := None |}
           Samples.oneStep Concrete.blank).
  reflexivity.
Defined.

(** X10.  Clearing the map does not redraw the list: a result without
    error whose events start or complete no step leaves the map empty and
    the list on the page as the previous result left it. *)
Theorem result_without_steps_keeps_list (data : TestRunnerData) (ui : UI) :
  or_null (d_error data) = None →
  Forall (λ e, type e ≠ "step_started" ∧ type e ≠ "step_completed")
    (default [] (d_events data)) →
  steps (processToolResult data ui) = ∅
  ∧ stepsEl (processToolResult data ui) = stepsEl ui.
Proof.
  intros He Hev. unfold processToolResult. rewrite He.
  assert (steps (with_steps ∅ ui) = ∅ ∧ stepsEl (with_steps ∅ ui) = stepsEl ui)
    as Hs by done.
  revert Hs. generalize (with_steps ∅ ui).
  induction Hev as [|e events [Hs Hc] _ IH]; intros u Hu; [done|].
  rewrite forEach_cons. apply IH.
  destruct (stepsEl_processEvent_other e u Hs Hc) as [-> ->]. done.
Qed.

Lemma result_without_steps_keeps_list_witness :
  steps (processToolResult
           {| d_events := Some [Concrete.event "run_started" None None None None];
              d_error := None |} Samples.oneStep) = ∅
  ∧ stepsEl (processToolResult
               {| d_events := Some [Concrete.event "run_started" None None None None];
                  d_error := None |} Samples.oneStep)
    = Some [Samples.running 1 "open"].
Proof.
  apply (result_without_steps_keeps_list
           {| d_events := Some [Concrete.event "run_started" None None None None];
              d_error := None |} Samples.oneStep).
  - reflexivity.
  - repeat constructor; by vm_compute.
Defined.

(** X11.  The status and the summary the tool handlers report are those of
    the first [run_completed] event; what follows it is not looked at. *)
Theorem run_status_of_first_completion (pre post : list SSEEvent)
    (e : SSEEvent) :
  Forall (λ e, type e ≠ "run_completed") pre → type e = "run_completed" →
  run_status (pre ++ e :: post) = status e
  ∧ run_summary (pre ++ e :: post) = summary e.
Proof.
  intros Hpre He.
  assert (completedEvent (pre ++ e :: post) = Some e) as Hc.
  { unfold completedEvent. induction Hpre as [|x pre Hx _ IH]; cbn [app find].
    - by rewrite bool_decide_true.
    - by rewrite bool_decide_false. }
  unfold run_status, run_summary. rewrite Hc.
  by destruct (decide (type e = "run_completed")).
Qed.

Lemma run_status_of_first_completion_witness :
  run_status
    ([Concrete.event "run_started" None None None None]
     ++ Concrete.event "run_completed" None None (Some "failed") None
     :: [Concrete.event "run_completed" None None (Some "passed") None])
  = Some "failed".
Proof.
  apply (run_status_of_first_completion
           [Concrete.event "run_started" None None None None]
           [Concrete.event "run_completed" None None (Some "passed") None]
           (Concrete.event "run_completed" None None (Some "failed") None)).
  - repeat constructor; by vm_compute.
  - reflexivity.
Defined.

(** X12.  The life of a step: started by [s], completed by [c], with in
    between any events for other steps.  The step keeps the action, target
    and value of [s] and takes status, duration, error, screenshot and
    retried flag from [c]; the action, target and value of [c] are not
    read. *)
Theorem step_lifecycle (s c : SSEEvent) (mid : list SSEEvent) (ui : UI)
    (n : Z) :
  n ≠ 0 →
  type s = "step_started" → step_number s = Some n →
  type c = "step_completed" → step_number c = Some n →
  Forall (λ e, ¬ names n e) mid →
  steps (forEach (s :: mid ++ [c]) ui) !! n
  = Some {| number := n;
            s_action := or_string (action s) "unknown";
            s_target := or_null (target s);
            s_value := or_null (value s);
            s_status := or_string (status c) "passed";
            s_duration := or_zero (duration c);
            s_error := error c;
            s_screenshot := screenshot c;
            s_retried := retried c |}.
Proof.
  intros Hn Hts Hns Htc Hnc Hmid.
  rewrite forEach_cons. unfold forEach. rewrite foldl_app. cbn [foldl].
  fold (forEach mid (processEvent s ui)).
  set (u := forEach mid (processEvent s ui)).
  assert (steps u !! n
          = Some {| number := n;
                    s_action := or_string (action s) "unknown";
                    s_target := or_null (target s);
                    s_value := or_null (value s);
                    s_status := "running"; s_duration := 0;
                    s_error := None; s_screenshot := None;
                    s_retried := None |}) as Hu.
  { subst u.
    assert (∀ events v, Forall (λ e, ¬ names n e) events →
              steps (forEach events v) !! n = steps v !! n) as Hframe.
    { intros events v Hev. revert v.
      induction Hev as [|e events He _ IH]; intros v; [done|].
      by rewrite forEach_cons, IH, steps_processEvent_other. }
    rewrite Hframe by done. unfold processEvent. rewrite Hts, Hns.
    destruct (decide (_ = "run_started")); [done|].
    destruct (decide (_ = "step_started")); [|done].
    rewrite truthy_number_nonzero, steps_updateStepsList by done.
    cbn [steps with_steps]. by rewrite lookup_insert_eq. }
  unfold processEvent. rewrite Htc, Hnc.
  destruct (decide (_ = "run_started")); [done|].
  destruct (decide (_ = "step_started")); [done|].
  destruct (decide (_ = "step_completed")); [|done].
  rewrite truthy_number_nonzero, Hu, steps_updateStepsList by done.
  cbn [steps with_steps]. by rewrite lookup_insert_eq.
Qed.

Lemma step_lifecycle_witness :
  s_status <$> steps (forEach
    (Concrete.event "step_started" (Some 1) (Some "open") None None
     :: [Concrete.event "step_started" (Some 2) (Some "click") None None]
     ++ [Concrete.event "step_completed" (Some 1) (Some "other") (Some "failed")
           (Some 7)]) Concrete.blank) !! 1 = Some "failed"
  ∧ s_action <$> steps (forEach
    (Concrete.event "step_started" (Some 1) (Some "open") None None
     :: [Concrete.event "step_started" (Some 2) (Some "click") None None]
     ++ [Concrete.event "step_completed" (Some 1) (Some "other") (Some "failed")
           (Some 7)]) Concrete.blank) !! 1 = Some "open".
Proof.
  rewrite (step_lifecycle
             (Concrete.event "step_started" (Some 1) (Some "open") None None)
             (Concrete.event "step_completed" (Some 1) (Some "other")
                (Some "failed") (Some 7))
             [Concrete.event "step_started" (Some 2) (Some "click") None None]
             Concrete.blank 1 ltac:(lia) eq_refl eq_refl eq_refl eq_refl
             ltac:(repeat constructor; by vm_compute)).
  split; reflexivity.
Defined.

Lemma or_string_filled x dflt : dflt ≠ "" → or_string x dflt ≠ "".
Proof.
  intros Hd. unfold or_string. destruct x as [s|]; [|done].
  by destruct (decide (s = "")).
Qed.

Lemma or_null_filled x : or_null x ≠ Some "".
Proof.
  unfold or_null. destruct x as [s|]; [|done].
  destruct (decide (s = "")); congruence.
Qed.

Lemma filled_processEvent e ui :
  map_Forall (λ _, filled) (steps ui) →
  map_Forall (λ _, filled) (steps (processEvent e ui)).
Proof.
  intros Hf.
  destruct (processEvent_cases e ui)
    as [->|[(m & _ & _ & _ & ->)|[(m & st & _ & _ & _ & Hst & ->)|[_ ->]]]];
    rewrite ?steps_updateStepsList, ?steps_showSummary; cbn [steps with_steps];
    try done; apply map_Forall_insert_2; try done.
  - repeat split; cbn; auto using or_null_filled. by apply or_string_filled.
  - destruct (Hf m st Hst) as (Ha & _ & Ht & Hv).
    repeat split; cbn; try done. by apply or_string_filled.
Qed.

(** X13.  No step in the map has an empty action, status, target or value:
    [step_started] and [step_completed] replace an empty or missing text by
    its default before storing it.  So for every step the fold produces,
    the status shown by [renderStep] is the stored one, and the text under
    the action is the target if there is one, else the value. *)
Theorem stored_steps_have_no_empty_text (events : list SSEEvent) (ui : UI) :
  map_Forall (λ _, filled) (steps ui) →
  ∀ n s, steps (forEach events ui) !! n = Some s →
    filled s
    ∧ statusClass s = s_status s
    ∧ targetDisplay s = default (default "" (s_value s)) (s_target s).
Proof.
  intros Hf n s Hs.
  assert (map_Forall (λ _, filled) (steps (forEach events ui))) as Hall.
  { clear n s Hs. revert ui Hf.
    induction events as [|e events IH]; intros ui Hf; [done|].
    rewrite forEach_cons. by apply IH, filled_processEvent. }
  pose proof (Hall n s Hs) as (Ha & Hst & Ht & Hv).
  split; [done|]. unfold statusClass, targetDisplay, or_string.
  split.
  - by destruct (decide (s_status s = "")).
  - destruct (s_target s) as [t|].
    + destruct (decide (t = "")); [congruence|done].
    + destruct (s_value s) as [v|]; [|done].
      destruct (decide (v = "")); [congruence|done].
Qed.

Lemma stored_steps_have_no_empty_text_witness :
  (s_action <$> steps (forEach [Samples.emptyTarget] Concrete.blank) !! 1
   = Some "unknown")
  ∧ ∃ s, steps (forEach [Samples.emptyTarget] Concrete.blank) !! 1 = Some s
         ∧ targetDisplay s = "https://example.com".
Proof.
  split; [by vm_compute|]. eexists. split; [reflexivity|].
  match goal with
  | |- targetDisplay ?s = _ =>
      destruct (stored_steps_have_no_empty_text [Samples.emptyTarget]
                  Concrete.blank (map_Forall_empty _) 1 s eq_refl)
        as (_ & _ & ->)
  end.
  by vm_compute.
Defined.

(** X14.  The address [renderStep] gives the screenshot image always
    carries the [data:] scheme, and a screenshot that is already a data URL
    is used as it is: the prefix is never added twice. *)
Theorem screenshot_src_is_data_url (screenshot : jsstring) :
  startsWith (screenshotSrc screenshot) DATA_SCHEME = true
  ∧ screenshotSrc (screenshotSrc screenshot) = screenshotSrc screenshot.
Proof.
  assert (startsWith (screenshotSrc screenshot) DATA_SCHEME = true) as Hs.
  { unfold screenshotSrc.
    destruct (startsWith screenshot DATA_SCHEME) eqn:E; [done|].
    reflexivity. }
  split; [done|]. unfold screenshotSrc at 1. by rewrite Hs.
Qed.

End RunnerMore.

(** ** More on the relay *)

Module RelayMore.
Import Relay Traces RelayFacts ListMore.
Local Open Scope Z_scope.

(** [pump] in full: every chunk is read and written, then the read that
    ends the loop. *)
Lemma pump_trace chunks ending :
  pump chunks ending
  = (flat_map (λ c, [Read; Write c]) chunks
     ++ Read :: match ending with Closes => [End] | Breaks _ => [] end,
     match ending with Closes => None | Breaks err => Some err end).
Proof.
  induction chunks as [|c chunks IH]; [by destruct ending|].
  cbn [pump]. by rewrite IH.
Qed.

Lemma written_reads_and_writes chunks :
  omap written (flat_map (λ c, [Read; Write c]) chunks) = chunks.
Proof.
  induction chunks as [|c chunks IH]; [done|].
  cbn [flat_map app]. rewrite !omap_cons_eq. cbn [written]. by rewrite IH.
Qed.


Lemma sent_pump chunks ending : sent (pump chunks ending).1 = [].
Proof. pump_induction chunks ending. Qed.


Lemma sent_forward w url body : sent (forward w url body) = [body].
Proof.
  unfold forward, sent. cbn [omap list_omap]. f_equal. fold sent.
  destruct (fetch w url body) as [err|r]; [done|].
  destruct (negb (ok r)); [done|].
  destruct (r_body r) as [b|]; [|done].
  pose proof (sent_pump (chunks b) (ending b)) as Hp.
  destruct (pump _ _) as [fx t]. cbn [fst] in Hp.
  unfold sent in *. rewrite !omap_app, Hp. by destruct t.
Qed.

(** The first property of a key that [pick] kept is the one of the
    body. *)
Lemma assoc_pick k ks body :
  assoc k (omap (λ k', (k',.) <$> prop k' body) ks)
  = if bool_decide (k ∈ ks) then prop k body else None.
Proof.
  induction ks as [|k' ks IH]; [done|].
  rewrite omap_cons_eq. destruct (decide (k = k')) as [<-|Hk].
  - rewrite bool_decide_true by left.
    destruct (prop k body) as [v|] eqn:E; cbn [fmap option_fmap option_map].
    + cbn [assoc]. by rewrite decide_True.
    + rewrite IH. by destruct (bool_decide (k ∈ ks)).
  - rewrite (bool_decide_ext (k ∈ k' :: ks) (k ∈ ks))
      by (rewrite elem_of_cons; tauto).
    destruct (prop k' body) as [v|]; cbn [fmap option_fmap option_map];
      [cbn [assoc]; by rewrite decide_False|done].
Qed.

Lemma prop_pick k ks body : k ∈ ks → prop k (pick ks body) = prop k body.
Proof.
  intros Hk. unfold pick. cbn [prop]. by rewrite assoc_pick, bool_decide_true.
Qed.

Lemma pick_pick ks body : pick ks (pick ks body) = pick ks body.
Proof.
  unfold pick at 1 3. f_equal.
  assert (∀ ks', ks' ⊆ ks →
            omap (λ k, (k,.) <$> prop k (pick ks body)) ks'
            = omap (λ k, (k,.) <$> prop k body) ks') as Hsub.
  { induction ks' as [|k ks' IH]; intros Hs; [done|].
    rewrite !omap_cons_eq, prop_pick, IH; [done| |]; set_solver. }
  by apply Hsub.
Qed.

Lemma digit_cases c :
  isDigit c = true →
  (c = 48 ∨ c = 49 ∨ c = 50 ∨ c = 51 ∨ c = 52 ∨ c = 53 ∨ c = 54 ∨ c = 55
   ∨ c = 56 ∨ c = 57)%N.
Proof.
  unfold isDigit, digit.
  destruct (N.leb_spec 48 c), (N.leb_spec c 57); cbn [andb]; try done.
  intros _. lia.
Qed.

Lemma digits_app ds rest acc :
  Forall (λ c, isDigit c = true) ds →
  match rest with c :: _ => isDigit c = false | [] => True end →
  digits (ds ++ rest) acc = digits ds acc.
Proof.
  intros Hds Hrest. revert acc.
  induction Hds as [|d ds Hd _ IH]; intros acc.
  - destruct rest as [|c rest]; [done|]. cbn [app digits].
    unfold isDigit in Hrest. by destruct (digit c).
  - cbn [app digits]. destruct (digit d); [apply IH|done].
Qed.

Lemma parseInt_leading_digits ds rest :
  ds ≠ [] → Forall (λ c, isDigit c = true) ds →
  match rest with c :: _ => isDigit c = false | [] => True end →
  parseInt (ds ++ rest) = parseInt ds.
Proof.
  intros Hne Hds Hrest. destruct ds as [|d ds]; [done|].
  pose proof (Forall_inv Hds) as Hd. apply digit_cases in Hd.
  assert (trimStart ((d :: ds) ++ rest) = d :: ds ++ rest
          ∧ trimStart (d :: ds) = d :: ds ∧ d ≠ 45%N ∧ d ≠ 43%N)
    as (E1 & E2 & Hm & Hp)
    by (destruct Hd as [->|[->|[->|[->|[->|[->|[->|[->|[->| ->]]]]]]]]];
        done).
  unfold parseInt. rewrite E1, E2.
  pose proof (digits_app (d :: ds) rest None Hds Hrest) as Happ.
  destruct Hd as [->|[->|[->|[->|[->|[->|[->|[->|[->| ->]]]]]]]]];
    exact Happ.
Qed.

(** X15.  The relay puts on the downstream response every chunk it reads
    from upstream, unchanged and in order, whether the upstream body then
    ends well or a read fails. *)
Theorem relay_writes_upstream_chunks (w : World) (url : jsstring)
    (body : JSON) (r : Response) (b : Body) :
  fetch w url body = Resolves r → ok r = true → r_body r = Some b →
  omap written (forward w url body) = chunks b.
Proof.
  intros Hf Hok Hb. unfold forward. rewrite Hf, Hok, Hb. cbn [negb].
  rewrite pump_trace, omap_cons_eq. cbn [written]. unfold sseHeaders.
  rewrite !omap_app, written_reads_and_writes.
  change (omap written [_; _; _; _]) with (@nil (list byte)).
  rewrite omap_cons_eq. cbn [written app].
  destruct (ending b); cbn; by rewrite ?app_nil_r.
Qed.

Lemma relay_writes_upstream_chunks_witness :
  omap written
    (forward (Concrete.backend Samples.streaming)
       (executeStreamUrl (Concrete.backend Samples.streaming))
       Concrete.goodBody)
  = Concrete.twoChunks.
Proof.
  apply (relay_writes_upstream_chunks (Concrete.backend Samples.streaming)
           (executeStreamUrl (Concrete.backend Samples.streaming))
           Concrete.goodBody
           {| r_status := 200; statusText := "OK";
              r_body := Some Samples.twoChunkBody |} Samples.twoChunkBody);
    reflexivity.
Defined.

(** X16.  The relay reads the upstream body to its end and never cancels
    its reader: for a success response with a body, the trace is the
    request, the SSE headers, one read and one write for every chunk, and
    the read that ends the loop, followed by [res.end()] when the body
    ended well and by the attempt of a JSON response with status 500 when
    the read failed. *)
Theorem relay_reads_upstream_to_its_end (w : World) (url : jsstring)
    (body : JSON) (r : Response) (b : Body) :
  fetch w url body = Resolves r → ok r = true → r_body r = Some b →
  forward w url body
  = Fetch url body :: sseHeaders
    ++ flat_map (λ c, [Read; Write c]) (chunks b)
    ++ Read :: match ending b with
               | Closes => [End]
               | Breaks err =>
                   [StatusJson 500 {| e_error := message_of err;
                                      e_details := None |}]
               end.
Proof.
  intros Hf Hok Hb. unfold forward. rewrite Hf, Hok, Hb. cbn [negb].
  rewrite pump_trace. destruct (ending b); by rewrite <- app_assoc.
Qed.

Lemma relay_reads_upstream_to_its_end_witness :
  forward (Concrete.backend Samples.streaming)
    (executeStreamUrl (Concrete.backend Samples.streaming)) Concrete.goodBody
  = Fetch (executeStreamUrl (Concrete.backend Samples.streaming))
      Concrete.goodBody
    :: sseHeaders
    ++ flat_map (λ c, [Read; Write c]) Concrete.twoChunks
    ++ [Read; End].
Proof.
  apply (relay_reads_upstream_to_its_end (Concrete.backend Samples.streaming)
           (executeStreamUrl (Concrete.backend Samples.streaming))
           Concrete.goodBody
           {| r_status := 200; statusText := "OK";
              r_body := Some Samples.twoChunkBody |} Samples.twoChunkBody);
    reflexivity.
Defined.



(** X18.  Validation only filters: a body that meets the requirements on
    project, steps, browser and fixtures is relayed by the handler with the
    schema exactly as by the handler without it. *)
Theorem validated_execute_relays_as_plain (w : World) (body : JSON) :
  executeBodyOk body = true →
  Validated.executeStream w body = Plain.executeStream w body.
Proof.
  intros Hok. unfold Validated.executeStream, Plain.executeStream.
  rewrite (safeParse_accepts _ _ _ (executeStepsSchema_ok body) Hok).
  change (keys executeStepsSchema) with executeKeys.
  unfold executeBody. by rewrite pick_pick.
Qed.

Lemma validated_execute_relays_as_plain_witness :
  Validated.executeStream (Concrete.backend Concrete.empty200) Concrete.goodBody
  = Plain.executeStream (Concrete.backend Concrete.empty200) Concrete.goodBody.
Proof.
  apply (validated_execute_relays_as_plain
           (Concrete.backend Concrete.empty200) Concrete.goodBody).
  by vm_compute.
Defined.

(** X19.  The same for a test case run: with an identifier that reads as the
    positive number [id], small enough for a Number to hold it exactly
    (below 2^53), and a body whose browser is absent or recognized, the
    handler with the checks relays as the one without does for the decimal
    text of [id]. *)
Theorem validated_run_relays_as_plain (w : World) (testCaseId : jsstring)
    (id : Z) (body : JSON) :
  parseInt testCaseId = Some id → 0 < id → id < 2 ^ 53 →
  runBodyOk body = true →
  Validated.runsStream w testCaseId body
  = Plain.runsStream w (lit (pretty id)) body.
Proof.
  intros Hid Hpos Hexact Hok. unfold Validated.runsStream, Plain.runsStream.
  rewrite Hid. destruct (Z.leb_spec id 0) as [?|_]; [lia|].
  rewrite (safeParse_accepts _ _ _ (testCaseRunSchema_ok body) Hok).
  unfold numberText. destruct (Z.ltb_spec id (2 ^ 53)) as [_|?]; [|lia].
  rewrite prop_pick; [done|]. by vm_compute; left.
Qed.

Lemma validated_run_relays_as_plain_witness :
  Validated.runsStream (Concrete.backend Concrete.empty200) (lit " 12abc")
    Samples.firefoxBody
  = Plain.runsStream (Concrete.backend Concrete.empty200) (lit "12")
      Samples.firefoxBody.
Proof.
  apply (validated_run_relays_as_plain (Concrete.backend Concrete.empty200)
           (lit " 12abc") 12 Samples.firefoxBody);
    [by vm_compute|lia|lia|by vm_compute].
Defined.

(** X20.  The handler with the schema never sends upstream a browser name
    outside the six recognized ones: a request it forwards for a test case
    run carries exactly one property, [browser], with a recognized name. *)
Theorem validated_run_sends_known_browser (w : World) (testCaseId : jsstring)
    (body sentBody : JSON) :
  sentBody ∈ sent (Validated.runsStream w testCaseId body) →
  ∃ name, name ∈ browsers ∧ sentBody = JObj [("browser", JStr name)].
Proof.
  unfold Validated.runsStream.
  destruct (parseInt testCaseId) as [id|];
    [|by intros ?%elem_of_nil].
  destruct (id <=? 0); [by intros ?%elem_of_nil|].
  unfold safeParse.
  destruct (issues testCaseRunSchema [] (Some body)) as [|i found] eqn:Ei;
    [|by intros ?%elem_of_nil].
  apply testCaseRunSchema_ok in Ei. unfold runBodyOk in Ei.
  apply andb_true_iff in Ei as [_ Hb].
  rewrite sent_forward, list_elem_of_singleton. intros ->.
  rewrite prop_pick by (by vm_compute; left).
  unfold browserBody, isBrowserOrAbsent in *. cbn [JSON_stringify map fst snd].
  destruct (prop "browser" body) as [[| | |name| |]|]; try done.
  - apply bool_decide_eq_true in Hb. exists name. split; [done|].
    cbn [truthy]. destruct (decide (name = "")) as [->|Hne].
    + assert ("" ∉ browsers) as Hno
        by (apply (bool_decide_unpack _); by vm_compute).
      done.
    + by rewrite bool_decide_false.
  - exists "chromium-headless". split; [|done].
    apply (bool_decide_unpack _). by vm_compute.
Qed.

Lemma validated_run_sends_known_browser_witness :
  ∃ name, name ∈ browsers
          ∧ JObj [("browser", JStr "firefox")] = JObj [("browser", JStr name)].
Proof.
  apply (validated_run_sends_known_browser (Concrete.backend Concrete.empty200)
           (lit "5") Samples.firefoxBody).
  by vm_compute; left.
Defined.

(** X21.  The handler with the checks reads the identifier as [parseInt]
    does: what follows the leading digits is ignored, so an identifier
    followed by other text is relayed like the identifier alone. *)
Theorem validated_run_reads_leading_digits (w : World) (ds rest : jsstring)
    (body : JSON) :
  ds ≠ [] → Forall (λ c, isDigit c = true) ds →
  match rest with c :: _ => isDigit c = false | [] => True end →
  Validated.runsStream w (ds ++ rest) body = Validated.runsStream w ds body.
Proof.
  intros Hne Hds Hrest. unfold Validated.runsStream.
  by rewrite parseInt_leading_digits.
Qed.

Lemma validated_run_reads_leading_digits_witness :
  Validated.runsStream (Concrete.backend Concrete.empty200)
    (lit "12" ++ lit "/../admin") Samples.firefoxBody
  = Validated.runsStream (Concrete.backend Concrete.empty200) (lit "12")
      Samples.firefoxBody.
Proof.
  apply (validated_run_reads_leading_digits
           (Concrete.backend Concrete.empty200) (lit "12") (lit "/../admin")
           Samples.firefoxBody).
  - by vm_compute.
  - repeat constructor.
  - by vm_compute.
Defined.

Lemma pick_fields ks body :
  ∃ fields, pick ks body = JObj fields
            ∧ fields.*1 `sublist_of` ks
            ∧ ∀ k v, (k, v) ∈ fields → prop k body = Some v.
Proof.
  unfold pick. eexists. split; [done|].
  induction ks as [|k ks [IHs IHv]]; [split; [done|by intros ?? ?%elem_of_nil]|].
  rewrite omap_cons_eq.
  destruct (prop k body) as [v|] eqn:E; cbn [fmap option_fmap option_map].
  - split; [by apply sublist_skip|].
    intros k' v' [[= -> ->]|Hin]%elem_of_cons; [done|by apply IHv].
  - split; [by apply sublist_cons|done].
Qed.

Lemma executeBody_fields body :
  ∃ fields, executeBody body = JObj fields
            ∧ fields.*1 `sublist_of` executeKeys
            ∧ ∀ k v, (k, v) ∈ fields →
                ∃ v0, prop k body = Some v0 ∧ v = JSON_stringify v0.
Proof.
  unfold executeBody.
  destruct (pick_fields executeKeys body) as (fields & -> & Hk & Hv).
  cbn [JSON_stringify]. eexists. split; [done|]. split.
  - by rewrite <- list_fmap_compose.
  - intros k v ([k0 v0] & [= -> ->] & Hin)%list_elem_of_fmap.
    exists v0. split; [by apply Hv|done].
Qed.

(** X22.  Neither revision of the execute-steps handler passes on a
    property it does not know: every request body sent upstream is an
    object whose keys are among [project_id], [steps], [browser] and
    [fixture_ids], in that order and each at most once, and each value is
    the one of the request as [JSON.stringify] writes it, a number that is
    not finite becoming [null]. *)
Theorem execute_relay_sends_known_keys_only (w : World)
    (body sentBody : JSON) :
  sentBody ∈ sent (Plain.executeStream w body)
  ∨ sentBody ∈ sent (Validated.executeStream w body) →
  ∃ fields, sentBody = JObj fields
            ∧ fields.*1 `sublist_of` executeKeys
            ∧ ∀ k v, (k, v) ∈ fields →
                ∃ v0, prop k body = Some v0 ∧ v = JSON_stringify v0.
Proof.
  assert (sentBody = executeBody body →
          ∃ fields, sentBody = JObj fields
                    ∧ fields.*1 `sublist_of` executeKeys
                    ∧ ∀ k v, (k, v) ∈ fields →
                        ∃ v0, prop k body = Some v0 ∧ v = JSON_stringify v0)
    as Hpick by (intros ->; apply executeBody_fields).
  unfold Plain.executeStream, Validated.executeStream, safeParse.
  intros [Hin|Hin]; apply Hpick.
  - rewrite sent_forward in Hin. by apply list_elem_of_singleton in Hin.
  - destruct (issues executeStepsSchema [] (Some body));
      [|by apply elem_of_nil in Hin].
    rewrite sent_forward in Hin. apply list_elem_of_singleton in Hin.
    change (keys executeStepsSchema) with executeKeys in Hin.
    unfold executeBody in *. by rewrite pick_pick in Hin.
Qed.

Lemma execute_relay_sends_known_keys_only_witness :
  (∃ fields,
     JObj [("project_id", JNum (Finite (1 # 1)));
           ("steps", JArr [JStr "open the page"])] = JObj fields
     ∧ fields.*1 `sublist_of` executeKeys
     ∧ ∀ k v, (k, v) ∈ fields →
         ∃ v0, prop k Samples.extraKeyBody = Some v0 ∧ v = JSON_stringify v0)
  ∧ (∃ fields,
       JObj [("project_id", JNull);
             ("steps", JArr [JStr "open the page"])] = JObj fields
       ∧ fields.*1 `sublist_of` executeKeys
       ∧ ∀ k v, (k, v) ∈ fields →
           ∃ v0, prop k Samples.infiniteBody = Some v0
                 ∧ v = JSON_stringify v0).
Proof.
  split.
  - apply (execute_relay_sends_known_keys_only
             (Concrete.backend Concrete.empty200) Samples.extraKeyBody).
    right. by vm_compute; left.
  - apply (execute_relay_sends_known_keys_only
             (Concrete.backend Concrete.empty200) Samples.infiniteBody).
    left. by vm_compute; left.
Defined.

End RelayMore.

(** ** The client's URLs and the tool [list_projects] *)

Module ClientMore.
Import Client.
Local Open Scope N_scope.

Lemma stripTrailingSlash_snoc s : stripTrailingSlash (s ++ [SLASH]) = s.
Proof.
  unfold stripTrailingSlash. rewrite last_snoc. cbn.
  by rewrite removelast_last.
Qed.

Lemma stripTrailingSlash_other s :
  last s ≠ Some SLASH → stripTrailingSlash s = s.
Proof.
  unfold stripTrailingSlash. destruct (last s) as [c|]; [|done].
  destruct (N.eqb_spec c SLASH) as [->|]; done.
Qed.

Lemma snoc_cases (s : jsstring) :
  last s ≠ Some SLASH ∨ ∃ s', s = s' ++ [SLASH].
Proof.
  destruct s as [|c s _] using rev_ind; [by left|].
  rewrite last_snoc. destruct (decide (c = SLASH)) as [->|Hc].
  - right. by exists s.
  - left. congruence.
Qed.

(** X23.  The client drops one trailing slash of the configured base URL,
    the proxy handlers use the URL as configured: the two address the same
    backend endpoints exactly when the configured URL does not end with a
    slash. *)
Theorem client_and_relay_urls_agree (w : Relay.World) (testCaseId : jsstring) :
  (executeTestCaseUrl (new (lit (Relay.CHECKMATE_URL w))) testCaseId
   = Relay.runsStreamUrl w testCaseId
   ↔ last (lit (Relay.CHECKMATE_URL w)) ≠ Some SLASH)
  ∧ (executeStepsUrl (new (lit (Relay.CHECKMATE_URL w)))
     = Relay.executeStreamUrl w
     ↔ last (lit (Relay.CHECKMATE_URL w)) ≠ Some SLASH).
Proof.
  unfold executeTestCaseUrl, executeStepsUrl, Relay.runsStreamUrl,
    Relay.executeStreamUrl, new. cbn [baseUrl].
  generalize (lit (Relay.CHECKMATE_URL w)). intros url.
  split; (split; [|by intros ->%stripTrailingSlash_other]);
    (destruct (snoc_cases url) as [Hl|[s ->]]; [done|]);
    rewrite stripTrailingSlash_snoc; intros E;
    apply (f_equal length) in E; rewrite !length_app in E;
    cbn [length] in E; lia.
Qed.

End ClientMore.

Module ToolsMore.
Import Tools.
Local Open Scope Z_scope.

Lemma enrich_counts listTestCases p :
  project (enrich listTestCases p) = p
  ∧ (active_count (enrich listTestCases p)
     ≤ test_case_count (enrich listTestCases p))%nat
  ∧ test_case_count (enrich listTestCases p)
    = match listTestCases (id p) with
      | inr testCases => length testCases
      | inl _ => 0%nat
      end.
Proof.
  unfold enrich. destruct (listTestCases (id p)) as [err|tcs];
    cbn [project active_count test_case_count]; repeat split; try lia.
  apply List.filter_length_le.
Qed.

(** X24.  [list_projects] answers for every project the backend lists, once
    and in the same order, whether or not the test cases of each could be
    listed: a project whose test cases fail to load is reported with
    counts 0 and makes the tool report no error; the active count never
    exceeds the count of test cases. *)
Theorem list_projects_keeps_every_project
    (listTestCases : nat → Z → Relay.Thrown + list TestCaseParsed)
    (found : list Project) :
  r_error (list_projects (inr found) listTestCases) = None
  ∧ project <$> projects (list_projects (inr found) listTestCases) = found
  ∧ ∀ i p, projects (list_projects (inr found) listTestCases) !! i = Some p →
      (active_count p ≤ test_case_count p)%nat
      ∧ test_case_count p
        = match listTestCases i (id (project p)) with
          | inr testCases => length testCases
          | inl _ => 0%nat
          end.
Proof.
  cbn [list_projects r_error projects]. split; [done|]. split.
  - apply list_eq. intros i.
    rewrite list_lookup_fmap, list_lookup_imap.
    destruct (found !! i) as [p|]; [|done]. cbn.
    by destruct (enrich_counts (listTestCases i) p) as (-> & _).
  - intros i p. rewrite list_lookup_imap.
    destruct (found !! i) as [q|]; [|done]. cbn. intros [= <-].
    destruct (enrich_counts (listTestCases i) q) as (Hp & Ha & Hc).
    by rewrite Hp.
Qed.

Lemma list_projects_keeps_every_project_witness :
  project <$> projects (list_projects (inr [Samples.shop; Samples.blog])
                          Samples.onlyShop)
  = [Samples.shop; Samples.blog]
  ∧ test_case_count
      <$> projects (list_projects (inr [Samples.shop; Samples.blog])
                      Samples.onlyShop)
    = [2%nat; 0%nat].
Proof.
  split; [|by vm_compute].
  apply (list_projects_keeps_every_project Samples.onlyShop
           [Samples.shop; Samples.blog]).
Defined.

End ToolsMore.
